(** * Constant evaluation in slang: evaluation context and array methods

    A shallow embedding of [source/ast/EvalContext.cpp] and
    [source/compilation/builtins/ArrayMethods.cpp], with the properties
    of the frame stack, the step counter, the backtrace attached to
    diagnostics and the built-in queue and array methods. *)

From Stdlib Require Import ZArith NArith Lia.
From stdpp Require Import base option list gmap strings pretty sorting.

Set Default Proof Using "Type".
Set Warnings "-register-all".

(** ** Source positions and diagnostics codes *)

Definition SourceLocation := N.

Record SourceRange := mkSourceRange {
  range_start : SourceLocation;
  range_end : SourceLocation
}.

Definition LookupLocation := N.
Bind Scope N_scope with SourceLocation LookupLocation.

(** The diagnostic codes that the two files name, and [OtherCode] for
    the codes of diagnostics that come from elsewhere. *)
Inductive DiagCode :=
| ConstEvalExceededMaxCallDepth
| ConstEvalExceededMaxSteps
| ConstEvalEmptyQueue
| ConstEvalDynamicArrayIndex
| ArrayMethodIntegral
| AssociativeWildcardNotAllowed
| NoteInCallTo
| NoteSkippingFrames
| OtherCode (n : N).

Definition DiagCode_eqb (a b : DiagCode) : bool :=
  match a, b with
  | ConstEvalExceededMaxCallDepth, ConstEvalExceededMaxCallDepth
  | ConstEvalExceededMaxSteps, ConstEvalExceededMaxSteps
  | ConstEvalEmptyQueue, ConstEvalEmptyQueue
  | ConstEvalDynamicArrayIndex, ConstEvalDynamicArrayIndex
  | ArrayMethodIntegral, ArrayMethodIntegral
  | AssociativeWildcardNotAllowed, AssociativeWildcardNotAllowed
  | NoteInCallTo, NoteInCallTo
  | NoteSkippingFrames, NoteSkippingFrames => true
  | OtherCode n, OtherCode m => (n =? m)%N
  | _, _ => false
  end.

(** ** Values *)

(** Modelled from the spec: SVInt (its sources are not among the files) is
    the arbitrary-width four-state integer: a bit width fixed at creation,
    a signedness flag, the plane of value bits and the plane of unknown
    (X or Z) bits. *)
Record SVInt := mkSVInt {
  sv_bitWidth : N;
  sv_signFlag : bool;
  sv_value : N;
  sv_unknown : N
}.

(** [SVInt(bits, value, isSigned)]: a known value, truncated to the width. *)
Definition SVInt_of (bits : N) (value : N) (isSigned : bool) : SVInt :=
  {| sv_bitWidth := bits; sv_signFlag := isSigned;
     sv_value := (value mod 2 ^ bits)%N; sv_unknown := 0%N |}.

(** The variants of ConstantValue that the array methods handle; the
    monostate variant is what [nullptr] converts to. *)
Inductive ConstantValue :=
| CVUnset
| CVInteger (i : SVInt)
| CVString (s : string)
| CVElements (elems : list ConstantValue)
| CVQueue (q : list ConstantValue)
| CVMap (m : list (ConstantValue * ConstantValue)).

(** [operator bool] of a ConstantValue. *)
Definition cv_bool (v : ConstantValue) : bool :=
  match v with CVUnset => false | _ => true end.

Definition isInteger (v : ConstantValue) : bool :=
  match v with CVInteger _ => true | _ => false end.

Definition isQueue (v : ConstantValue) : bool :=
  match v with CVQueue _ => true | _ => false end.

(** [std::get<SVInt>]: fails on any other variant. *)
Definition integer (v : ConstantValue) : option SVInt :=
  match v with CVInteger i => Some i | _ => None end.

(** Modelled from the spec: the size and emptiness queries of the value
    model (ConstantValue.cpp is not among the files). *)
Definition cv_size (v : ConstantValue) : nat :=
  match v with
  | CVElements l | CVQueue l => length l
  | CVMap m => length m
  | CVString s => String.length s
  | _ => 0
  end.

Definition cv_empty (v : ConstantValue) : bool := Nat.eqb (cv_size v) 0.

(** Modelled from the spec: the elements of a container value, in the
    order in which [begin(arr)] .. [end(arr)] walks them (ConstantValue.cpp
    is not among the files). *)
Definition cv_elements (v : ConstantValue) : list ConstantValue :=
  match v with
  | CVElements l | CVQueue l => l
  | CVMap m => m.*2
  | _ => []
  end.

(** ** Types and symbols *)

(** Type.h is not among the files: a type is represented by the answers
    to the queries that the evaluated code asks of it. *)
Inductive Type_ := mkType {
  getBitWidth : N;
  isSigned : bool;
  isIntegral : bool;
  getArrayElementType : option Type_;
  getDefaultValue : ConstantValue
}.

(** Symbols are compared by address in the source. *)
Record ValueSymbol := mkValueSymbol {
  sym_addr : positive;
  sym_name : string;
  getType : Type_
}.

Record SubroutineSymbol := mkSubroutineSymbol {
  sub_name : string;
  sub_location : SourceLocation;
  getArguments : list ValueSymbol
}.

(** ** Diagnostics *)

Inductive DiagArg :=
| ArgNum (n : N)
| ArgText (s : string)
| ArgValue (v : ConstantValue)
| ArgType (t : Type_).

Inductive DiagWhere :=
| AtLocation (l : SourceLocation)
| AtRange (r : SourceRange).

Inductive Diagnostic := mkDiagnostic {
  code : DiagCode;
  location : DiagWhere;
  args : list DiagArg;
  notes : list Diagnostic
}.

(** [diag << arg] *)
Definition shl (diag : Diagnostic) (a : DiagArg) : Diagnostic :=
  {| code := code diag; location := location diag;
     args := args diag ++ [a]; notes := notes diag |}.

(** [diag.addNote(code, location) << ...]: the finished note is appended. *)
Definition addNote (diag : Diagnostic) (note : Diagnostic) : Diagnostic :=
  {| code := code diag; location := location diag;
     args := args diag; notes := notes diag ++ [note] |}.

Definition newDiagnostic (c : DiagCode) (w : DiagWhere) : Diagnostic :=
  {| code := c; location := w; args := []; notes := [] |}.

(** ** The evaluation context *)

(** A [ConstantValue*] is an address in the store of value objects. *)
Definition loc := positive.
Bind Scope positive_scope with loc.

(** The nodes of [temporaries] hold their values in the store, so that the
    pointers handed out by [createLocal] and [findLocal] stay meaningful. *)
Record Frame := mkFrame {
  temporaries : gmap positive loc;
  subroutine : option SubroutineSymbol;
  callLocation : SourceLocation;
  lookupLocation : LookupLocation
}.

Definition emptyFrame : Frame :=
  {| temporaries := ∅; subroutine := None; callLocation := 0%N;
     lookupLocation := 0%N |}.

(** Modelled from the spec: LValue (its sources are not among the files) is
    a chain of selectors from a base storage cell; [resolve] walks the chain
    against the live values and yields a location or fails. *)
Record LValue := mkLValue {
  lval_bool : bool;
  resolve : gmap loc ConstantValue → option loc
}.

(** The limits of [compilation.getOptions()]: unsigned values, which the
    [uint32_t] local of [pushFrame] and the [size_t] local of [reportStack]
    hold as they are. *)
Record CompilationOptions := mkOptions {
  maxConstexprDepth : N;
  maxConstexprSteps : N;
  maxConstexprBacktrace : N
}.

Record EvalContext := mkEvalContext {
  options : CompilationOptions;
  steps : N;
  stack : list Frame;
  lvalStack : list LValue;
  diags : list Diagnostic;
  disableTarget : option N;
  queueTarget : option loc;
  disableRange : option SourceRange;
  heap : gmap loc ConstantValue
}.

Definition set_steps (n : N) (s : EvalContext) : EvalContext :=
  {| options := options s; steps := n; stack := stack s;
     lvalStack := lvalStack s; diags := diags s;
     disableTarget := disableTarget s; queueTarget := queueTarget s;
     disableRange := disableRange s; heap := heap s |}.

Definition set_stack (st : list Frame) (s : EvalContext) : EvalContext :=
  {| options := options s; steps := steps s; stack := st;
     lvalStack := lvalStack s; diags := diags s;
     disableTarget := disableTarget s; queueTarget := queueTarget s;
     disableRange := disableRange s; heap := heap s |}.

Definition set_lvalStack (ls : list LValue) (s : EvalContext) : EvalContext :=
  {| options := options s; steps := steps s; stack := stack s;
     lvalStack := ls; diags := diags s;
     disableTarget := disableTarget s; queueTarget := queueTarget s;
     disableRange := disableRange s; heap := heap s |}.

Definition set_diags (ds : list Diagnostic) (s : EvalContext) : EvalContext :=
  {| options := options s; steps := steps s; stack := stack s;
     lvalStack := lvalStack s; diags := ds;
     disableTarget := disableTarget s; queueTarget := queueTarget s;
     disableRange := disableRange s; heap := heap s |}.

Definition set_heap (h : gmap loc ConstantValue) (s : EvalContext)
  : EvalContext :=
  {| options := options s; steps := steps s; stack := stack s;
     lvalStack := lvalStack s; diags := diags s;
     disableTarget := disableTarget s; queueTarget := queueTarget s;
     disableRange := disableRange s; heap := h |}.

(** [*target = v] *)
Definition store (l : loc) (v : ConstantValue) (s : EvalContext)
  : EvalContext :=
  set_heap (<[l := v]> (heap s)) s.

(** ** The evaluation monad

    A member function of EvalContext, or an [eval] that receives the
    context by reference, is a state transformer; [None] is abnormal
    termination: a failed ASSERT, an access to a variant that is not the
    active one, or undefined behaviour. *)
Definition M (A : Type) : Type := EvalContext → option (A * EvalContext).

Definition ret {A} (a : A) : M A := λ s, Some (a, s).

Definition bind {A B} (m : M A) (k : A → M B) : M B :=
  λ s, match m s with
       | Some (a, s') => k a s'
       | None => None
       end.

Definition abort {A} : M A := λ _, None.

Definition ASSERT (b : bool) : M unit := if b then ret tt else abort.

Definition lift {A} (o : option A) : M A :=
  match o with Some a => ret a | None => abort end.

Definition modify (f : EvalContext → EvalContext) : M unit :=
  λ s, Some (tt, f s).

Notation "'let*' x ':=' m 'in' k" := (bind m (λ x, k))
  (at level 10, x name, m at level 100, k at level 200, only parsing).

(** ** What the two files take from the rest of the code base *)

Class Externals := {
  (** [ConstantValue::toString] *)
  toString : ConstantValue → string;
  (** [SVInt::as<int32_t>]: nothing when the value has unknown bits or
      does not fit. *)
  as_int32 : SVInt → option Z;
  (** [operator<] of ConstantValue *)
  cv_less : ConstantValue → ConstantValue → bool;
  (** the compound assignments of SVInt *)
  sv_or : SVInt → SVInt → SVInt;
  sv_and : SVInt → SVInt → SVInt;
  sv_xor : SVInt → SVInt → SVInt;
  sv_add : SVInt → SVInt → SVInt;
  sv_mul : SVInt → SVInt → SVInt;
  (** the width in bits of the unsigned counter [steps], which
      EvalContext.h declares *)
  steps_bits : N
}.

Section EvalContext.
Context {ext : Externals}.

(** *** Locals *)

Definition back (s : EvalContext) : option Frame := last (stack s).

(** [stack.back() = frame] *)
Definition set_back (frame : Frame) (s : EvalContext) : EvalContext :=
  set_stack (<[pred (length (stack s)) := frame]> (stack s)) s.

Definition set_temporaries (t : gmap positive loc) (f : Frame) : Frame :=
  {| temporaries := t; subroutine := subroutine f;
     callLocation := callLocation f; lookupLocation := lookupLocation f |}.

(** [stack.back().temporaries[symbol]]: the node of the symbol, made with
    an unset value when there is none yet. *)
Definition temporaries_at (symbol : ValueSymbol) : M loc :=
  λ s, match back s with
       | None => None
       | Some frame =>
         match temporaries frame !! sym_addr symbol with
         | Some l => Some (l, s)
         | None =>
           let l := fresh (dom (heap s)) in
           Some (l, store l CVUnset
             (set_back (set_temporaries
                (<[sym_addr symbol := l]> (temporaries frame)) frame) s))
         end
       end.

Definition stack_empty : M bool := λ s, Some (bool_decide (stack s = []), s).

Definition createLocal (symbol : ValueSymbol) (value : ConstantValue)
  : M loc :=
  let* e := stack_empty in
  let* _ := ASSERT (negb e) in
  let* result := temporaries_at symbol in
  if negb (cv_bool value) then
    let* _ := modify (store result (getDefaultValue (getType symbol))) in
    ret result
  else
    let* _ := ASSERT (match value with
                      | CVInteger i =>
                        (sv_bitWidth i =? getBitWidth (getType symbol))%N
                      | _ => true
                      end) in
    let* _ := modify (store result value) in
    ret result.

Definition findLocal (symbol : ValueSymbol) : M (option loc) :=
  λ s, match back s with
       | None => Some (None, s)
       | Some frame => Some (temporaries frame !! sym_addr symbol, s)
       end.

Definition deleteLocal (symbol : ValueSymbol) : M unit :=
  λ s, match back s with
       | None => Some (tt, s)
       | Some frame =>
         match temporaries frame !! sym_addr symbol with
         | None => Some (tt, s)
         | Some l =>
           Some (tt, set_heap (delete l (heap s))
             (set_back (set_temporaries
                (delete (sym_addr symbol) (temporaries frame)) frame) s))
         end
       end.

(** *** Frames and backtraces *)

(** The loop of [reportFrame] over the arguments of the subroutine. *)
Fixpoint appendArguments (hp : gmap loc ConstantValue) (frame : Frame)
    (lastArg : option ValueSymbol) (arguments : list ValueSymbol)
    (buffer : string) : option string :=
  match arguments with
  | [] => Some buffer
  | arg :: rest =>
    match temporaries frame !! sym_addr arg with
    | None => None (* ASSERT(it != frame.temporaries.end()) *)
    | Some l =>
      match hp !! l with
      | None => None
      | Some v =>
        let buffer := buffer +:+ toString v in
        let buffer :=
          match lastArg with
          | Some la =>
            if negb (sym_addr arg =? sym_addr la)%positive
            then buffer +:+ ", " else buffer
          | None => buffer
          end in
        appendArguments hp frame lastArg rest buffer
      end
    end
  end.

Definition reportFrame (hp : gmap loc ConstantValue) (diag : Diagnostic)
    (frame : Frame) : option Diagnostic :=
  match subroutine frame with
  | None => Some diag
  | Some sub =>
    match appendArguments hp frame (last (getArguments sub))
            (getArguments sub) (sub_name sub +:+ "(") with
    | None => None
    | Some buffer =>
      Some (addNote diag
              (shl (newDiagnostic NoteInCallTo
                      (AtLocation (callLocation frame)))
                   (ArgText (buffer +:+ ")"))))
    end
  end.

(** [for (frame : frames) reportFrame(diag, frame);] *)
Fixpoint reportFrames (hp : gmap loc ConstantValue) (diag : Diagnostic)
    (frames : list Frame) : option Diagnostic :=
  match frames with
  | [] => Some diag
  | frame :: rest =>
    match reportFrame hp diag frame with
    | None => None
    | Some diag' => reportFrames hp diag' rest
    end
  end.

Definition reportStack (s : EvalContext) (diag : Diagnostic)
  : option Diagnostic :=
  let limit := maxConstexprBacktrace (options s) in
  let size := N.of_nat (length (stack s)) in
  if (size <=? limit)%N || (limit =? 0)%N then
    reportFrames (heap s) diag (reverse (stack s))
  else
    let start := N.to_nat (limit / 2) in
    let end_ := (start + N.to_nat (limit mod 2))%nat in
    let reversed := reverse (stack s) in
    match reportFrames (heap s) diag (take start reversed) with
    | None => None
    | Some diag1 =>
      match reversed !! start with
      | None => None
      | Some frame =>
        let diag2 :=
          addNote diag1
            (shl (newDiagnostic NoteSkippingFrames
                    (AtLocation (callLocation frame)))
                 (ArgNum (size - limit))) in
        reportFrames (heap s) diag2
          (drop (length reversed - end_) reversed)
      end
    end.

(** [diags.add(code, where)] followed by [reportStack]; the caller's
    [<<] on the returned reference is [addDiagArg]. *)
Definition addDiag (c : DiagCode) (w : DiagWhere) : M unit :=
  λ s, match reportStack s (newDiagnostic c w) with
       | None => None
       | Some diag => Some (tt, set_diags (diags s ++ [diag]) s)
       end.

(** [<<] through the reference that [addDiag] returned: the diagnostic
    is the last one of [diags]. *)
Definition addDiagArg (a : DiagArg) : M unit :=
  λ s, match last (diags s) with
       | None => None
       | Some diag =>
         Some (tt, set_diags (removelast (diags s) ++ [shl diag a]) s)
       end.

Fixpoint addDiags_from (first : bool) (additional : list Diagnostic)
  : M unit :=
  match additional with
  | [] => ret tt
  | diag :: rest =>
    if first then
      λ s, match reportStack s diag with
           | None => None
           | Some copy =>
             addDiags_from false rest (set_diags (diags s ++ [copy]) s)
           end
    else
      let* _ := modify (λ s, set_diags (diags s ++ [diag]) s) in
      addDiags_from false rest
  end.

Definition addDiags (additional : list Diagnostic) : M unit :=
  addDiags_from true additional.

Definition pushFrame (sub : SubroutineSymbol) (callLoc : SourceLocation)
    (lookupLoc : LookupLocation) : M bool :=
  λ s,
    let maxDepth := maxConstexprDepth (options s) in
    if (maxDepth <=? N.of_nat (length (stack s)))%N then
      (let* _ := addDiag ConstEvalExceededMaxCallDepth
                   (AtLocation (sub_location sub)) in
       let* _ := addDiagArg (ArgNum maxDepth) in
       ret false) s
    else
      let frame := {| temporaries := ∅; subroutine := Some sub;
                      callLocation := callLoc;
                      lookupLocation := lookupLoc |} in
      Some (true, set_stack (stack s ++ [frame]) s).

Definition pushEmptyFrame : M unit :=
  modify (λ s, set_stack (stack s ++ [emptyFrame]) s).

(** [pop_back] on an empty vector is undefined. *)
Definition popFrame : M unit :=
  λ s, match stack s with
       | [] => None
       | _ => Some (tt, set_stack (removelast (stack s)) s)
       end.

Definition pushLValue (lval : LValue) : M unit :=
  modify (λ s, set_lvalStack (lvalStack s ++ [lval]) s).

Definition popLValue : M unit :=
  λ s, match lvalStack s with
       | [] => None
       | _ => Some (tt, set_lvalStack (removelast (lvalStack s)) s)
       end.

Definition getTopLValue : M (option LValue) :=
  λ s, Some (last (lvalStack s), s).

(** [++steps] on the unsigned counter. *)
Definition step (l : SourceLocation) : M bool :=
  λ s,
    let n := ((steps s + 1) mod 2 ^ steps_bits)%N in
    let s1 := set_steps n s in
    if (n <? maxConstexprSteps (options s1))%N then Some (true, s1)
    else
      (let* _ := addDiag ConstEvalExceededMaxSteps (AtLocation l) in
       ret false) s1.

Definition reset : M unit :=
  modify (λ s,
    {| options := options s; steps := 0%N; stack := [];
       lvalStack := []; diags := []; disableTarget := None;
       queueTarget := None; disableRange := None; heap := heap s |}).

End EvalContext.

(** ** Expressions and system subroutines *)

(** Expression nodes are evaluated through their virtual [eval] and
    [evalLValue]; the array methods use nothing else of them but the type
    and the source range. *)
Record Expression := mkExpression {
  expr_type : Type_;
  sourceRange : SourceRange;
  eval : M ConstantValue;
  evalLValue : M LValue
}.

Definition Args := list Expression.

Record SystemCallInfo := mkSystemCallInfo {
  iterExpr : option Expression;
  iterVar : option ValueSymbol
}.

Inductive SymbolKind :=
| FixedSizeUnpackedArrayType
| DynamicArrayType
| AssociativeArrayType
| QueueType
| Iterator.

(** The method objects that [registerArrayMethods] constructs, with their
    constructor arguments. *)
Inductive SystemMethod :=
| ArrayReductionMethod (name : string) (op : SVInt → SVInt → SVInt)
| ArraySortMethod (name : string) (reversed : bool)
| ArraySizeMethod (name : string)
| DynArrayDeleteMethod
| AssocArrayDeleteMethod
| AssocArrayExistsMethod
| AssocArrayTraversalMethod (name : string)
| QueuePopMethod (name : string) (front : bool)
| QueuePushMethod (name : string) (front : bool)
| QueueInsertMethod
| QueueDeleteMethod
| IteratorIndexMethod.

(** [std::sort(first, last)] with [operator<] as a parameter. The standard
    fixes the result only up to the order of equivalent elements, and not
    at all when the comparison is not a strict weak ordering. This is the
    insertion sort: it agrees with every conforming implementation when
    the comparison orders the elements totally ([strict_total_on], no two
    distinct elements equivalent), which the properties of [sort] and
    [rsort] below assume; outside of that it fixes one outcome that the
    standard does not promise. *)
Fixpoint sort_insert {A} (less : A → A → bool) (x : A) (l : list A)
  : list A :=
  match l with
  | [] => [x]
  | y :: l' => if less y x then y :: sort_insert less x l' else x :: l
  end.

Definition std_sort {A} (less : A → A → bool) (l : list A) : list A :=
  foldr (sort_insert less) [] l.

Section ArrayMethods.
Context {ext : Externals}.

(** [args[i]] *)
Definition arg (args : Args) (i : nat) : M Expression := lift (args !! i).

(** [*target] *)
Definition deref (target : loc) : M ConstantValue :=
  λ s, match heap s !! target with
       | Some v => Some (v, s)
       | None => None
       end.

(** [lval.resolve()] *)
Definition resolve_in (lval : LValue) : M (option loc) :=
  λ s, Some (resolve lval (heap s), s).

(** *** ArrayReductionMethod::eval *)

(** [for (++it; it != end(arr); ++it) op(result, it->integer());] *)
Fixpoint reduce_rest (op : SVInt → SVInt → SVInt) (result : SVInt)
    (rest : list ConstantValue) : option SVInt :=
  match rest with
  | [] => Some result
  | v :: rest' =>
    match integer v with
    | None => None
    | Some i => reduce_rest op (op result i) rest'
    end
  end.

(** The same loop with the iterator expression. *)
Fixpoint reduce_rest_with (op : SVInt → SVInt → SVInt) (ie : Expression)
    (iterVal : loc) (result : SVInt) (rest : list ConstantValue)
  : M ConstantValue :=
  match rest with
  | [] => ret (CVInteger result)
  | v :: rest' =>
    let* _ := modify (store iterVal v) in
    let* cv := eval ie in
    if negb (cv_bool cv) then ret CVUnset
    else
      let* i := lift (integer cv) in
      reduce_rest_with op ie iterVal (op result i) rest'
  end.

Definition ArrayReductionMethod_eval (op : SVInt → SVInt → SVInt)
    (args : Args) (callInfo : SystemCallInfo) : M ConstantValue :=
  let* a0 := arg args 0 in
  let* arr := eval a0 in
  if negb (cv_bool arr) then ret CVUnset
  else
    match iterExpr callInfo with
    | Some ie =>
      let* iv := lift (iterVar callInfo) in
      if cv_empty arr then
        let elemType := expr_type ie in
        ret (CVInteger (SVInt_of (getBitWidth elemType) 0
                          (isSigned elemType)))
      else
        match cv_elements arr with
        | [] => abort
        | first :: rest =>
          let* iterVal := createLocal iv first in
          let* cv := eval ie in
          if negb (cv_bool cv) then ret CVUnset
          else
            let* result := lift (integer cv) in
            reduce_rest_with op ie iterVal result rest
        end
    | None =>
      if cv_empty arr then
        let* elemType := lift (getArrayElementType (expr_type a0)) in
        ret (CVInteger (SVInt_of (getBitWidth elemType) 0
                          (isSigned elemType)))
      else
        match cv_elements arr with
        | [] => abort
        | first :: rest =>
          let* result := lift (integer first) in
          let* result := lift (reduce_rest op result rest) in
          ret (CVInteger result)
        end
    end.

(** *** ArraySortMethod::eval *)

(** The predicate of the [with] clause, which evaluates the iterator
    expression on both operands, and [std::sort] with such a predicate.
    The predicate reads the elements through the iterator variable only. *)
Definition sort_pred (ie : Expression) (iterVal : loc)
    (a b : ConstantValue) : M bool :=
  let* _ := modify (store iterVal a) in
  let* cva := eval ie in
  let* _ := modify (store iterVal b) in
  let* cvb := eval ie in
  ret (cv_less cva cvb).

(** [std::sort] with the predicate of the [with] clause, whose calls run
    in the context. The same insertion sort: the order of the calls of the
    predicate and the order of elements of equal key are those of this
    algorithm, not of a given implementation of [std::sort]; no property
    below is stated of its result. *)
Fixpoint sort_insert_with (pred : ConstantValue → ConstantValue → M bool)
    (x : ConstantValue) (l : list ConstantValue) : M (list ConstantValue) :=
  match l with
  | [] => ret [x]
  | y :: l' =>
    let* b := pred y x in
    if b then
      let* r := sort_insert_with pred x l' in
      ret (y :: r)
    else ret (x :: l)
  end.

Fixpoint std_sort_with (pred : ConstantValue → ConstantValue → M bool)
    (l : list ConstantValue) : M (list ConstantValue) :=
  match l with
  | [] => ret []
  | x :: l' =>
    let* r := std_sort_with pred l' in
    sort_insert_with pred x r
  end.

(** [sortTarget]: over [rbegin, rend) when reversed. *)
Definition sortTarget (reversed : bool) (l : list ConstantValue)
  : list ConstantValue :=
  if reversed then reverse (std_sort cv_less (reverse l))
  else std_sort cv_less l.

Definition sortTarget_with (reversed : bool)
    (pred : ConstantValue → ConstantValue → M bool)
    (l : list ConstantValue) : M (list ConstantValue) :=
  if reversed then
    let* r := std_sort_with pred (reverse l) in
    ret (reverse r)
  else std_sort_with pred l.

Definition ArraySortMethod_eval (reversed : bool) (args : Args)
    (callInfo : SystemCallInfo) : M ConstantValue :=
  let* a0 := arg args 0 in
  let* lval := evalLValue a0 in
  if negb (lval_bool lval) then ret CVUnset
  else
    let* target := resolve_in lval in
    match target with
    | None => ret CVUnset
    | Some target =>
      match iterExpr callInfo with
      | Some ie =>
        let* iv := lift (iterVar callInfo) in
        let* iterVal := createLocal iv CVUnset in
        let* v := deref target in
        match v with
        | CVQueue q =>
          let* q' := sortTarget_with reversed (sort_pred ie iterVal) q in
          let* _ := modify (store target (CVQueue q')) in
          ret CVUnset
        | CVElements vec =>
          let* vec' :=
            sortTarget_with reversed (sort_pred ie iterVal) vec in
          let* _ := modify (store target (CVElements vec')) in
          ret CVUnset
        | _ => abort
        end
      | None =>
        let* v := deref target in
        match v with
        | CVQueue q =>
          let* _ :=
            modify (store target (CVQueue (sortTarget reversed q))) in
          ret CVUnset
        | CVElements vec =>
          let* _ :=
            modify (store target (CVElements (sortTarget reversed vec))) in
          ret CVUnset
        | _ => abort
        end
      end
    end.

(** *** ArraySizeMethod::eval *)

Definition ArraySizeMethod_eval (args : Args) : M ConstantValue :=
  let* a0 := arg args 0 in
  let* val := eval a0 in
  if negb (cv_bool val) then ret CVUnset
  else ret (CVInteger (SVInt_of 32 (N.of_nat (cv_size val)) true)).

(** *** QueuePopMethod::eval *)

(** [ASSERT(target && target->isQueue()); auto& q = *target->queue();] *)
Definition target_queue (target : option loc)
  : M (loc * list ConstantValue) :=
  let* t := lift target in
  let* v := deref t in
  match v with
  | CVQueue q => ret (t, q)
  | _ => abort
  end.

Definition QueuePopMethod_eval (front : bool) (args : Args)
  : M ConstantValue :=
  let* a0 := arg args 0 in
  let* lval := evalLValue a0 in
  if negb (lval_bool lval) then ret CVUnset
  else
    let* target := resolve_in lval in
    let* tq := target_queue target in
    let (t, q) := tq in
    if bool_decide (q = []) then
      let* _ := addDiag ConstEvalEmptyQueue (AtRange (sourceRange a0)) in
      let* elemType := lift (getArrayElementType (expr_type a0)) in
      ret (getDefaultValue elemType)
    else
      let* result := lift (if front then head q else last q) in
      let* _ := modify (store t (CVQueue
                  (if front then tail q else removelast q))) in
      ret result.

(** *** QueuePushMethod::eval *)

Definition QueuePushMethod_eval (front : bool) (args : Args)
  : M ConstantValue :=
  let* a0 := arg args 0 in
  let* lval := evalLValue a0 in
  let* a1 := arg args 1 in
  let* cv := eval a1 in
  if negb (lval_bool lval) || negb (cv_bool cv) then ret CVUnset
  else
    let* target := resolve_in lval in
    let* tq := target_queue target in
    let (t, q) := tq in
    let* _ := modify (store t (CVQueue
                (if front then cv :: q else q ++ [cv]))) in
    ret CVUnset.

(** *** QueueInsertMethod::eval *)

(** [!index || *index < 0 || size_t( *index) >= bound] *)
Definition index_out_of_range (index : option Z) (bound : N) : bool :=
  match index with
  | None => true
  | Some i => (i <? 0)%Z || (bound <=? Z.to_N i)%N
  end.

Definition QueueInsertMethod_eval (args : Args) : M ConstantValue :=
  let* a0 := arg args 0 in
  let* lval := evalLValue a0 in
  let* a1 := arg args 1 in
  let* ci := eval a1 in
  let* a2 := arg args 2 in
  let* cv := eval a2 in
  if negb (lval_bool lval) || negb (cv_bool ci) || negb (cv_bool cv)
  then ret CVUnset
  else
    let* target := resolve_in lval in
    let* tq := target_queue target in
    let (t, q) := tq in
    let* i := lift (integer ci) in
    let index := as_int32 i in
    let bound := (N.of_nat (length q) + 1)%N in
    if index_out_of_range index bound then
      let* _ := addDiag ConstEvalDynamicArrayIndex
                  (AtRange (sourceRange a1)) in
      let* _ := addDiagArg (ArgValue ci) in
      let* _ := addDiagArg (ArgType (expr_type a0)) in
      let* _ := addDiagArg (ArgNum bound) in
      ret CVUnset
    else
      let n := Z.to_nat (default 0%Z index) in
      let* _ := modify (store t (CVQueue (take n q ++ cv :: drop n q))) in
      ret CVUnset.

(** *** QueueDeleteMethod::eval *)

Definition QueueDeleteMethod_eval (args : Args) : M ConstantValue :=
  let* a0 := arg args 0 in
  let* lval := evalLValue a0 in
  if negb (lval_bool lval) then ret CVUnset
  else
    let* target := resolve_in lval in
    let* tq := target_queue target in
    let (t, q) := tq in
    if bool_decide (length args = 1%nat) then
      let* _ := modify (store t (CVQueue [])) in
      ret CVUnset
    else
      let* a1 := arg args 1 in
      let* ci := eval a1 in
      (* [q] is a reference: it is read after the index is evaluated *)
      let* tq' := target_queue (Some t) in
      let q := tq'.2 in
      let* i := lift (integer ci) in
      let index := as_int32 i in
      let bound := N.of_nat (length q) in
      if index_out_of_range index bound then
        let* _ := addDiag ConstEvalDynamicArrayIndex
                    (AtRange (sourceRange a1)) in
        let* _ := addDiagArg (ArgValue ci) in
        let* _ := addDiagArg (ArgType (expr_type a0)) in
        let* _ := addDiagArg (ArgNum bound) in
        ret CVUnset
      else
        let n := Z.to_nat (default 0%Z index) in
        let* _ := modify (store t (CVQueue (take n q ++ drop (S n) q))) in
        ret CVUnset.

(** *** The delete and exists methods of the other containers *)

(** Modelled from the spec: [LValue::store] overwrites the resolved
    location (LValue.cpp is not among the files). *)
Definition lval_store (lval : LValue) (v : ConstantValue) : M unit :=
  let* target := resolve_in lval in
  match target with
  | Some t => modify (store t v)
  | None => ret tt
  end.

Definition DynArrayDeleteMethod_eval (args : Args) : M ConstantValue :=
  let* a0 := arg args 0 in
  let* lval := evalLValue a0 in
  if negb (lval_bool lval) then ret CVUnset
  else
    let* _ := lval_store lval (getDefaultValue (expr_type a0)) in
    ret CVUnset.

(** Keys of a [std::map] are the same when neither is less. *)
Definition same_key (a b : ConstantValue) : bool :=
  negb (cv_less a b) && negb (cv_less b a).

Definition AssocArrayDeleteMethod_eval (args : Args) : M ConstantValue :=
  let* a0 := arg args 0 in
  let* lval := evalLValue a0 in
  if negb (lval_bool lval) then ret CVUnset
  else if bool_decide (1 < length args)%nat then
    let* a1 := arg args 1 in
    let* index := eval a1 in
    if negb (cv_bool index) then ret CVUnset
    else
      let* target := resolve_in lval in
      match target with
      | None => ret CVUnset
      | Some t =>
        let* v := deref t in
        match v with
        | CVMap m =>
          let* _ := modify (store t (CVMap
                      (filter (λ kv, same_key kv.1 index = false) m))) in
          ret CVUnset
        | _ => ret CVUnset
        end
      end
  else
    let* _ := lval_store lval (getDefaultValue (expr_type a0)) in
    ret CVUnset.

Definition AssocArrayExistsMethod_eval (args : Args) : M ConstantValue :=
  let* a0 := arg args 0 in
  let* array := eval a0 in
  let* a1 := arg args 1 in
  let* index := eval a1 in
  if negb (cv_bool array) || negb (cv_bool index) then ret CVUnset
  else
    match array with
    | CVMap m =>
      let exists_ := existsb (λ kv, same_key kv.1 index) m in
      ret (CVInteger (SVInt_of 32 (if exists_ then 1 else 0) true))
    | _ => abort
    end.

(** *** registerArrayMethods *)

Definition registerArrayMethods : list (SymbolKind * SystemMethod) :=
  flat_map (λ kind,
      [ (kind, ArrayReductionMethod "or" sv_or);
        (kind, ArrayReductionMethod "and" sv_and);
        (kind, ArrayReductionMethod "xor" sv_xor);
        (kind, ArrayReductionMethod "sum" sv_add);
        (kind, ArrayReductionMethod "product" sv_mul) ])
    [ FixedSizeUnpackedArrayType; DynamicArrayType; AssociativeArrayType;
      QueueType ]
  ++ flat_map (λ kind, [ (kind, ArraySizeMethod "size") ])
    [ DynamicArrayType; AssociativeArrayType; QueueType ]
  ++ flat_map (λ kind,
      [ (kind, ArraySortMethod "sort" false);
        (kind, ArraySortMethod "rsort" true) ])
    [ FixedSizeUnpackedArrayType; DynamicArrayType; QueueType ]
  ++ [ (AssociativeArrayType, ArraySizeMethod "num");
       (DynamicArrayType, DynArrayDeleteMethod);
       (AssociativeArrayType, AssocArrayDeleteMethod);
       (QueueType, QueueDeleteMethod);
       (AssociativeArrayType, AssocArrayExistsMethod);
       (AssociativeArrayType, AssocArrayTraversalMethod "first");
       (AssociativeArrayType, AssocArrayTraversalMethod "last");
       (AssociativeArrayType, AssocArrayTraversalMethod "next");
       (AssociativeArrayType, AssocArrayTraversalMethod "prev");
       (QueueType, QueuePopMethod "pop_front" true);
       (QueueType, QueuePopMethod "pop_back" false);
       (QueueType, QueuePushMethod "push_front" true);
       (QueueType, QueuePushMethod "push_back" false);
       (QueueType, QueueInsertMethod);
       (Iterator, IteratorIndexMethod) ].

(** The virtual [eval] of a registered method. The methods that are never
    constant ([first] and its siblings, [index]) return [nullptr]. *)
Definition SystemMethod_eval (m : SystemMethod) (args : Args)
    (callInfo : SystemCallInfo) : M ConstantValue :=
  match m with
  | ArrayReductionMethod _ op => ArrayReductionMethod_eval op args callInfo
  | ArraySortMethod _ reversed => ArraySortMethod_eval reversed args callInfo
  | ArraySizeMethod _ => ArraySizeMethod_eval args
  | DynArrayDeleteMethod => DynArrayDeleteMethod_eval args
  | AssocArrayDeleteMethod => AssocArrayDeleteMethod_eval args
  | AssocArrayExistsMethod => AssocArrayExistsMethod_eval args
  | AssocArrayTraversalMethod _ => ret CVUnset
  | QueuePopMethod _ front => QueuePopMethod_eval front args
  | QueuePushMethod _ front => QueuePushMethod_eval front args
  | QueueInsertMethod => QueueInsertMethod_eval args
  | QueueDeleteMethod => QueueDeleteMethod_eval args
  | IteratorIndexMethod => ret CVUnset
  end.

End ArrayMethods.

(** ** Notions used in the statements *)

Section Notions.
Context {ext : Externals}.

(** The invariant that the ASSERT of [reportFrame] checks: every argument
    of the frame's subroutine has a temporary (and the node of a temporary
    holds a value). The caller of [pushFrame] establishes it by creating the
    arguments as locals right after the push. *)
Definition frame_bound (hp : gmap loc ConstantValue) (frame : Frame) : bool :=
  match subroutine frame with
  | None => true
  | Some sub =>
    forallb (λ a, match temporaries frame !! sym_addr a with
                  | Some l => bool_decide (is_Some (hp !! l))
                  | None => false
                  end) (getArguments sub)
  end.

Definition stack_bound (s : EvalContext) : Prop :=
  Forall (λ frame, frame_bound (heap s) frame = true) (stack s).

(** The note that a frame contributes to a backtrace: none for a frame
    without a subroutine, else one [NoteInCallTo] at the call site. *)
Definition frame_note (hp : gmap loc ConstantValue) (frame : Frame)
  : list Diagnostic :=
  match subroutine frame with
  | None => []
  | Some sub =>
    match appendArguments hp frame (last (getArguments sub))
            (getArguments sub) (sub_name sub +:+ "(") with
    | None => []
    | Some buffer =>
      [shl (newDiagnostic NoteInCallTo (AtLocation (callLocation frame)))
           (ArgText (buffer +:+ ")"))]
    end
  end.

Definition add_notes (diag : Diagnostic) (ns : list Diagnostic)
  : Diagnostic :=
  {| code := code diag; location := location diag; args := args diag;
     notes := notes diag ++ ns |}.

(** The frames as a backtrace lists them: the most recent call first. *)
Definition display_order (s : EvalContext) : list Frame :=
  reverse (stack s).

(** The note that stands for the frames left out. *)
Definition elision_note (at_frame : Frame) (skipped : N) : Diagnostic :=
  shl (newDiagnostic NoteSkippingFrames
         (AtLocation (callLocation at_frame))) (ArgNum skipped).

Definition count_code (c : DiagCode) (ns : list Diagnostic) : nat :=
  length (filter (λ n, DiagCode_eqb (code n) c = true) ns).

Definition last_n {A} (n : nat) (l : list A) : list A :=
  drop (length l - n) l.

(** An evaluation that performs [n] steps, as the callers of [step] do:
    one call per statement or iteration, given up at the first false. *)
Fixpoint steps_loop (n : nat) (l : SourceLocation) : M bool :=
  match n with
  | O => ret true
  | S n' =>
    let* ok := step l in
    if ok then steps_loop n' l else ret false
  end.

Definition has_subroutine (frame : Frame) : bool :=
  match subroutine frame with Some _ => true | None => false end.

Definition count_called (frames : list Frame) : nat :=
  length (filter (λ frame, has_subroutine frame = true) frames).

End Notions.

(** A comparison that is a strict total order on the elements of a list:
    irreflexive, transitive, and any two elements that are not ordered
    either way are the same. *)
Definition strict_total_on {A} (less : A → A → bool) (l : list A) : Prop :=
  (∀ a, a ∈ l → less a a = false)
  ∧ (∀ a b c, a ∈ l → b ∈ l → c ∈ l →
       less a b = true → less b c = true → less a c = true)
  ∧ (∀ a b, a ∈ l → b ∈ l → less a b = false → less b a = false → a = b).

(** No later element is less than an earlier one. *)
Definition ascending {A} (less : A → A → bool) : relation A :=
  λ a b, less b a = false.

(** No earlier element is less than a later one. *)
Definition descending {A} (less : A → A → bool) : relation A :=
  λ a b, less a b = false.

(** ** Sample inputs

    A two-state reading of what the rest of the code base provides, and
    small contexts and expressions on which the properties are run. *)

Definition sample_as_int32 (v : SVInt) : option Z :=
  if (sv_unknown v =? 0)%N then
    let z :=
      if sv_signFlag v && N.testbit (sv_value v) (sv_bitWidth v - 1)
      then (Z.of_N (sv_value v) - 2 ^ Z.of_N (sv_bitWidth v))%Z
      else Z.of_N (sv_value v) in
    if ((- 2 ^ 31 <=? z) && (z <? 2 ^ 31))%Z then Some z else None
  else None.

Definition sample_less (a b : ConstantValue) : bool :=
  match a, b with
  | CVInteger x, CVInteger y => (sv_value x <? sv_value y)%N
  | _, _ => false
  end.

Definition sample_op (f : N → N → N) (l r : SVInt) : SVInt :=
  SVInt_of (sv_bitWidth l) (f (sv_value l) (sv_value r)) (sv_signFlag l).

Definition sample_externals : Externals :=
  {| toString v :=
       match v with CVInteger i => pretty (sv_value i) | _ => "?" end;
     as_int32 := sample_as_int32;
     cv_less := sample_less;
     sv_or := sample_op N.lor;
     sv_and := sample_op N.land;
     sv_xor := sample_op N.lxor;
     sv_add := sample_op N.add;
     sv_mul := sample_op N.mul;
     steps_bits := 32 |}.

Definition sample_int (n : N) : ConstantValue :=
  CVInteger (SVInt_of 32 n true).

Definition sample_int_type : Type_ :=
  {| getBitWidth := 32; isSigned := true; isIntegral := true;
     getArrayElementType := None; getDefaultValue := sample_int 0 |}.

Definition sample_byte_type : Type_ :=
  {| getBitWidth := 8; isSigned := false; isIntegral := true;
     getArrayElementType := None;
     getDefaultValue := CVInteger (SVInt_of 8 0 false) |}.

Definition sample_queue_type (elem : Type_) : Type_ :=
  {| getBitWidth := 0; isSigned := false; isIntegral := false;
     getArrayElementType := Some elem; getDefaultValue := CVQueue [] |}.

Definition sample_arg : ValueSymbol :=
  {| sym_addr := 1; sym_name := "n"; getType := sample_int_type |}.

Definition sample_sub : SubroutineSymbol :=
  {| sub_name := "f"; sub_location := 7%N; getArguments := [sample_arg] |}.

(** A frame of a call of [f], with its argument at [l]. *)
Definition sample_call (l : loc) (callLoc : SourceLocation) : Frame :=
  {| temporaries := {[ 1%positive := l ]}; subroutine := Some sample_sub;
     callLocation := callLoc; lookupLocation := 0%N |}.

(** Three nested calls of [f] over the empty frame of the top level, with
    limits of four frames, three steps and a backtrace of two. *)
Definition sample_ctx : EvalContext :=
  {| options := {| maxConstexprDepth := 4; maxConstexprSteps := 3;
                   maxConstexprBacktrace := 2 |};
     steps := 0;
     stack := [emptyFrame; sample_call 10 100%N; sample_call 11 101%N;
               sample_call 12 102%N];
     lvalStack := []; diags := [];
     disableTarget := None; queueTarget := None; disableRange := None;
     heap := {[ 10%positive := sample_int 3; 11%positive := sample_int 2;
                12%positive := sample_int 1 ]} |}.

(** The same with one call only, so that the limits are not reached. *)
Definition sample_shallow_ctx : EvalContext :=
  set_stack [emptyFrame; sample_call 10 100%N] sample_ctx.

(** The same without a limit on the backtrace. *)
Definition sample_unlimited_ctx : EvalContext :=
  {| options := {| maxConstexprDepth := 4; maxConstexprSteps := 3;
                   maxConstexprBacktrace := 0 |};
     steps := 0; stack := stack sample_ctx;
     lvalStack := []; diags := [];
     disableTarget := None; queueTarget := None; disableRange := None;
     heap := heap sample_ctx |}.

(** A context whose location 20 holds the queue [q]. *)
Definition sample_queue_ctx (q : list ConstantValue) : EvalContext :=
  set_heap (<[ 20%positive := CVQueue q ]> (heap sample_shallow_ctx))
    sample_shallow_ctx.

(** The expression that names the queue at [l]. *)
Definition sample_queue_expr (elem : Type_) (l : loc) : Expression :=
  {| expr_type := sample_queue_type elem;
     sourceRange := {| range_start := 1; range_end := 2 |};
     eval := λ s, match heap s !! l with
                  | Some v => Some (v, s)
                  | None => None
                  end;
     evalLValue := ret {| lval_bool := true;
                          resolve := λ hp, match hp !! l with
                                           | Some _ => Some l
                                           | None => None
                                           end |} |}.

(** An integer literal. *)
Definition sample_literal (n : N) : Expression :=
  {| expr_type := sample_int_type;
     sourceRange := {| range_start := 3; range_end := 4 |};
     eval := ret (sample_int n);
     evalLValue := ret {| lval_bool := false; resolve := λ _, None |} |}.

(** An expression whose evaluation gives the unset value. *)
Definition sample_unset : Expression :=
  {| expr_type := sample_int_type;
     sourceRange := {| range_start := 5; range_end := 6 |};
     eval := ret CVUnset;
     evalLValue := ret {| lval_bool := false; resolve := λ _, None |} |}.

Definition sample_no_with : SystemCallInfo :=
  {| iterExpr := None; iterVar := None |}.

Definition sample_queue : Expression :=
  sample_queue_expr sample_int_type 20.

Definition sample_byte_queue : Expression :=
  sample_queue_expr sample_byte_type 20.

Definition sample_lvalue : LValue :=
  {| lval_bool := true;
     resolve := λ hp, match hp !! 20%positive with
                      | Some _ => Some 20%positive
                      | None => None
                      end |}.

(** The notes of the diagnostic that a call has just recorded. *)
Definition recorded_notes {A} (r : option (A * EvalContext))
  : list Diagnostic :=
  match r with
  | Some (_, s') =>
    match last (diags s') with
    | Some diag => notes diag
    | None => []
    end
  | None => []
  end.

(** ** Notions used in the further properties *)

(** The condition of the second ASSERT of [createLocal]: an integer value
    has the bit width of the type of the symbol. *)
Definition local_fits (symbol : ValueSymbol) (value : ConstantValue) : bool :=
  match value with
  | CVInteger i => (sv_bitWidth i =? getBitWidth (getType symbol))%N
  | _ => true
  end.

(** What [createLocal] leaves in the local: the value, or the default of
    the type of the symbol when no value is given. *)
Definition stored_value (symbol : ValueSymbol) (value : ConstantValue)
  : ConstantValue :=
  if cv_bool value then value else getDefaultValue (getType symbol).

(** The node of a symbol in the temporaries of the top frame. *)
Definition local_of (symbol : ValueSymbol) (s : EvalContext) : option loc :=
  match last (stack s) with
  | Some frame => temporaries frame !! sym_addr symbol
  | None => None
  end.


(** An expression that names the variable at [t]: evaluating it, as a value
    or as an lvalue, has no effect; the value is the one at [t], and the
    lvalue resolves to [t] whenever [t] holds a value. *)
Definition names_variable (e : Expression) (t : loc) : Prop :=
  (∀ s v, heap s !! t = Some v → eval e s = Some (v, s))
  ∧ ∃ lval,
      lval_bool lval = true
      ∧ (∀ s, evalLValue e s = Some (lval, s))
      ∧ (∀ hp v, hp !! t = Some v → resolve lval hp = Some t).

(** An expression whose evaluation has no effect and gives [v]. *)
Definition constant_expr (e : Expression) (v : ConstantValue) : Prop :=
  ∀ s, eval e s = Some (v, s).

(** The names under which [registerArrayMethods] registers its methods:
    the constructor argument, or the literal in the constructor. *)
Definition method_name (m : SystemMethod) : string :=
  match m with
  | ArrayReductionMethod name _ | ArraySortMethod name _
  | ArraySizeMethod name | AssocArrayTraversalMethod name
  | QueuePopMethod name _ | QueuePushMethod name _ => name
  | DynArrayDeleteMethod | AssocArrayDeleteMethod | QueueDeleteMethod =>
    "delete"
  | AssocArrayExistsMethod => "exists"
  | QueueInsertMethod => "insert"
  | IteratorIndexMethod => "index"
  end.


#[global] Instance SymbolKind_eq_dec : EqDecision SymbolKind.
Proof. solve_decision. Defined.


(** ** ASTContext.h: the flags of AST creation

    The enumerators of [ASTFlags] ([LValueFlag] is the enumerator [LValue])
    and their values; a [bitmask<ASTFlags>] is the 64-bit word of the
    flags that are set. *)
Inductive ASTFlags :=
| NoFlags
| InsideConcatenation
| UnevaluatedBranch
| AllowDataType
| EnumInitializer
| NoAttributes
| AssignmentAllowed
| AssignmentDisallowed
| NonProcedural
| StaticInitializer
| StreamingAllowed
| TopLevelStatement
| AllowUnboundedLiteral
| AllowUnboundedLiteralArithmetic
| Function
| Final
| NonBlockingTimingControl
| EventExpression
| AllowTypeReferences
| AssertionExpr
| AllowClockingBlock
| AssertionInstanceArgCheck
| AssertionDelayOrRepetition
| LValueFlag
| PropertyNegation
| PropertyTimeAdvance
| RecursivePropertyArg
| ConcurrentAssertActionBlock
| AllowCoverageSampleFormal
| AllowCoverpoint
| AllowNetType
| OutputArg
| ProceduralAssign
| ProceduralForceRelease
| AllowInterconnect
| NotADriver
| StreamingWithRange
| SpecifyBlock
| DPIArg
| AssertionDefaultArg
| LAndRValue
| NoReference.

(** The shift of [1ull << k]; [NoFlags] is the enumerator [None = 0]. *)
Definition ASTFlags_shift (f : ASTFlags) : option N :=
  match f with
  | NoFlags => None
  | InsideConcatenation => Some 0%N
  | UnevaluatedBranch => Some 1%N
  | AllowDataType => Some 2%N
  | EnumInitializer => Some 3%N
  | NoAttributes => Some 4%N
  | AssignmentAllowed => Some 5%N
  | AssignmentDisallowed => Some 6%N
  | NonProcedural => Some 7%N
  | StaticInitializer => Some 8%N
  | StreamingAllowed => Some 9%N
  | TopLevelStatement => Some 10%N
  | AllowUnboundedLiteral => Some 11%N
  | AllowUnboundedLiteralArithmetic => Some 12%N
  | Function => Some 13%N
  | Final => Some 14%N
  | NonBlockingTimingControl => Some 15%N
  | EventExpression => Some 16%N
  | AllowTypeReferences => Some 17%N
  | AssertionExpr => Some 18%N
  | AllowClockingBlock => Some 19%N
  | AssertionInstanceArgCheck => Some 20%N
  | AssertionDelayOrRepetition => Some 21%N
  | LValueFlag => Some 22%N
  | PropertyNegation => Some 23%N
  | PropertyTimeAdvance => Some 24%N
  | RecursivePropertyArg => Some 25%N
  | ConcurrentAssertActionBlock => Some 26%N
  | AllowCoverageSampleFormal => Some 27%N
  | AllowCoverpoint => Some 28%N
  | AllowNetType => Some 29%N
  | OutputArg => Some 30%N
  | ProceduralAssign => Some 31%N
  | ProceduralForceRelease => Some 32%N
  | AllowInterconnect => Some 33%N
  | NotADriver => Some 34%N
  | StreamingWithRange => Some 35%N
  | SpecifyBlock => Some 36%N
  | DPIArg => Some 37%N
  | AssertionDefaultArg => Some 38%N
  | LAndRValue => Some 39%N
  | NoReference => Some 40%N
  end.

Definition ASTFlags_value (f : ASTFlags) : N :=
  match ASTFlags_shift f with
  | Some k => (N.shiftl 1 k mod 2 ^ 64)%N
  | None => 0%N
  end.

(** The members of ASTContext that its inline functions read or write. *)
Record ASTContext := mkASTContext {
  lookupIndex : N;
  flags : N;
  instanceOrProc : option N
}.

(** [(flags & ASTFlags::UnevaluatedBranch) != 0] *)
Definition inUnevaluatedBranch (context : ASTContext) : bool :=
  negb (N.land (flags context) (ASTFlags_value UnevaluatedBranch) =? 0)%N.

Definition clearInstanceAndProc (context : ASTContext) : ASTContext :=
  {| lookupIndex := lookupIndex context; flags := flags context;
     instanceOrProc := None |}.

(** [flags |= f] on the bitmask of a context. *)
Definition with_flag (context : ASTContext) (f : ASTFlags) : ASTContext :=
  {| lookupIndex := lookupIndex context;
     flags := N.lor (flags context) (ASTFlags_value f);
     instanceOrProc := instanceOrProc context |}.

#[global] Instance ASTFlags_eq_dec : EqDecision ASTFlags.
Proof. solve_decision. Defined.

(** ** Binding: checkArguments of the reductions and of the sorts *)

(** What [checkArguments] takes from SystemSubroutine: [checkArgCount],
    which may report to the context and says whether the count is right. *)
Class BindExternals := {
  checkArgCount : bool → Args → SourceRange → nat → nat →
                  list Diagnostic → bool * list Diagnostic
}.

(** The type that [checkArguments] returns: the error type or the void
    type of the compilation, or a type of the program. *)
Inductive BoundType :=
| ErrorType
| VoidType
| TypeOf (t : Type_).

(** [context.addDiag(diag::ArrayMethodIntegral, range) << name], on the
    diagnostics that the binding context collects. *)
Definition addMethodIntegral (range : SourceRange) (name : string)
    (ds : list Diagnostic) : list Diagnostic :=
  ds ++ [shl (newDiagnostic ArrayMethodIntegral (AtRange range))
             (ArgText name)].

Section CheckArguments.
Context {bx : BindExternals}.

(** [ArrayReductionMethod::checkArguments]: the count, then the integral
    type of the iterator expression or else of the elements. *)
Definition ArrayReductionMethod_checkArguments (name : string) (args : Args)
    (range : SourceRange) (iterExpr : option Expression)
    (ds : list Diagnostic) : option (BoundType * list Diagnostic) :=
  let (ok, ds1) := checkArgCount true args range 0 0 ds in
  if negb ok then Some (ErrorType, ds1)
  else
    match iterExpr with
    | Some ie =>
      if negb (isIntegral (expr_type ie)) then
        Some (ErrorType, addMethodIntegral (sourceRange ie) name ds1)
      else Some (TypeOf (expr_type ie), ds1)
    | None =>
      match args !! 0%nat with
      | None => None
      | Some a0 =>
        match getArrayElementType (expr_type a0) with
        | None => None (* ASSERT(elemType) *)
        | Some elemType =>
          if negb (isIntegral elemType) then
            Some (ErrorType, addMethodIntegral (sourceRange a0) name ds1)
          else Some (TypeOf elemType, ds1)
        end
      end
    end.

(** [ArraySortMethod::checkArguments]: the same checks, for a method
    that returns nothing. *)
Definition ArraySortMethod_checkArguments (name : string) (args : Args)
    (range : SourceRange) (iterExpr : option Expression)
    (ds : list Diagnostic) : option (BoundType * list Diagnostic) :=
  let (ok, ds1) := checkArgCount true args range 0 0 ds in
  if negb ok then Some (ErrorType, ds1)
  else
    match iterExpr with
    | Some ie =>
      if negb (isIntegral (expr_type ie)) then
        Some (ErrorType, addMethodIntegral (sourceRange ie) name ds1)
      else Some (VoidType, ds1)
    | None =>
      match args !! 0%nat with
      | None => None
      | Some a0 =>
        match getArrayElementType (expr_type a0) with
        | None => None (* ASSERT(elemType) *)
        | Some elemType =>
          if negb (isIntegral elemType) then
            Some (ErrorType, addMethodIntegral (sourceRange a0) name ds1)
          else Some (VoidType, ds1)
        end
      end
    end.

End CheckArguments.

(** A count check that reports nothing, for the sample inputs. *)
Definition sample_bind_externals : BindExternals :=
  {| checkArgCount isMethod args range min max ds :=
       (let n := (length args - (if isMethod then 1 else 0))%nat in
        (min <=? n)%nat && (n <=? max)%nat, ds) |}.

(** A queue of strings, whose elements are not integral. *)
Definition sample_string_type : Type_ :=
  {| getBitWidth := 0; isSigned := false; isIntegral := false;
     getArrayElementType := None; getDefaultValue := CVString EmptyString |}.


(** * Properties *)

Section EvalContextFacts.
Context {ext : Externals}.

Lemma add_notes_nil diag : add_notes diag [] = diag.
Proof. destruct diag; unfold add_notes; simpl. by rewrite app_nil_r. Qed.

Lemma add_notes_app diag ns ms :
  add_notes (add_notes diag ns) ms = add_notes diag (ns ++ ms).
Proof. unfold add_notes; simpl. by rewrite app_assoc. Qed.

Lemma addNote_add_notes diag note : addNote diag note = add_notes diag [note].
Proof. reflexivity. Qed.

Lemma appendArguments_bound hp frame la arguments buffer :
  forallb (λ a, match temporaries frame !! sym_addr a with
                | Some l => bool_decide (is_Some (hp !! l))
                | None => false
                end) arguments = true →
  is_Some (appendArguments hp frame la arguments buffer).
Proof.
  revert buffer. induction arguments as [|a rest IH]; intros buffer Hb.
  - by eexists.
  - simpl in Hb. apply andb_true_iff in Hb as [Ha Hrest]. simpl.
    destruct (temporaries frame !! sym_addr a) as [l|]; [|done].
    apply bool_decide_eq_true in Ha as [v Hv]. rewrite Hv.
    by apply IH.
Qed.

Lemma reportFrame_bound hp diag frame :
  frame_bound hp frame = true →
  reportFrame hp diag frame = Some (add_notes diag (frame_note hp frame)).
Proof.
  unfold frame_bound, reportFrame, frame_note. intros Hb.
  destruct (subroutine frame) as [sub|].
  - destruct (appendArguments_bound hp frame (last (getArguments sub))
                (getArguments sub) (sub_name sub +:+ "(") Hb) as [b Hbuf].
    by rewrite Hbuf.
  - by rewrite add_notes_nil.
Qed.

Lemma reportFrames_bound hp diag frames :
  Forall (λ frame, frame_bound hp frame = true) frames →
  reportFrames hp diag frames
  = Some (add_notes diag (flat_map (frame_note hp) frames)).
Proof.
  intros Hb. revert diag.
  induction Hb as [|f fs Hf Hfs IH]; intros diag; simpl.
  - by rewrite add_notes_nil.
  - rewrite (reportFrame_bound _ _ _ Hf), IH. by rewrite add_notes_app.
Qed.

Lemma half_up (L : N) :
  (N.to_nat (L / 2) + N.to_nat (L mod 2))%nat = N.to_nat ((L + 1) / 2).
Proof.
  pose proof (N.div_mod L 2 ltac:(done)) as Hdm.
  pose proof (N.mod_lt L 2 ltac:(done)) as Hlt.
  assert (((L + 1) / 2 = L / 2 + L mod 2)%N) as ->; [|lia].
  symmetry. apply N.div_unique with (r := (1 - L mod 2)%N);
    revert Hdm Hlt; generalize (L / 2)%N (L mod 2)%N; intros; lia.
Qed.

Lemma reportStack_full s diag :
  stack_bound s →
  (N.of_nat (length (stack s)) ≤ maxConstexprBacktrace (options s))%N
  ∨ maxConstexprBacktrace (options s) = 0%N →
  reportStack s diag
  = Some (add_notes diag
            (flat_map (frame_note (heap s)) (display_order s))).
Proof.
  intros Hb Hcase. unfold reportStack.
  assert ((N.of_nat (length (stack s))
             <=? maxConstexprBacktrace (options s))%N
          || (maxConstexprBacktrace (options s) =? 0)%N = true) as ->.
  { apply orb_true_iff. destruct Hcase as [Hle|Hz]; [left|right].
    - by apply N.leb_le.
    - by apply N.eqb_eq. }
  apply reportFrames_bound. by apply Forall_reverse.
Qed.

Lemma reportStack_elided s diag :
  stack_bound s →
  maxConstexprBacktrace (options s) ≠ 0%N →
  (maxConstexprBacktrace (options s) < N.of_nat (length (stack s)))%N →
  let L := maxConstexprBacktrace (options s) in
  ∃ frame,
    display_order s !! N.to_nat (L / 2) = Some frame
    ∧ reportStack s diag
      = Some (add_notes diag
          (flat_map (frame_note (heap s))
             (take (N.to_nat (L / 2)) (display_order s))
           ++ elision_note frame (N.of_nat (length (stack s)) - L)
           :: flat_map (frame_note (heap s))
                (last_n (N.to_nat ((L + 1) / 2)) (display_order s)))).
Proof.
  intros Hb Hnz Hlt L. unfold reportStack. fold L.
  assert ((N.of_nat (length (stack s)) <=? L)%N || (L =? 0)%N = false) as ->.
  { apply orb_false_iff. split.
    - apply N.leb_gt. done.
    - by apply N.eqb_neq. }
  fold (display_order s).
  assert (Forall (λ frame, frame_bound (heap s) frame = true)
            (display_order s)) as Hd by by apply Forall_reverse.
  assert (N.to_nat (L / 2) < length (display_order s))%nat as Hstart.
  { unfold display_order. rewrite length_reverse.
    pose proof (N.Div0.div_le_upper_bound L 2 L ltac:(lia)). lia. }
  destruct (lookup_lt_is_Some_2 _ _ Hstart) as [frame Hframe].
  exists frame. split; [done|].
  rewrite (reportFrames_bound _ _ _ (Forall_take _ _ _ Hd)), Hframe.
  rewrite half_up. fold (last_n (N.to_nat ((L + 1) / 2)) (display_order s)).
  rewrite addNote_add_notes, add_notes_app.
  rewrite reportFrames_bound by by apply Forall_drop.
  rewrite add_notes_app. by rewrite <- app_assoc.
Qed.

(** What [reportStack] leaves alone. *)
Lemma reportFrame_keeps hp diag frame diag' :
  reportFrame hp diag frame = Some diag' →
  code diag' = code diag ∧ location diag' = location diag
  ∧ args diag' = args diag ∧ ∃ ns, notes diag' = notes diag ++ ns.
Proof.
  unfold reportFrame. intros Hr.
  destruct (subroutine frame) as [sub|].
  - destruct (appendArguments _ _ _ _ _); simplify_eq. simpl. eauto.
  - simplify_eq. repeat split. exists []. by rewrite app_nil_r.
Qed.

Lemma reportFrames_keeps hp frames : ∀ diag diag',
  reportFrames hp diag frames = Some diag' →
  code diag' = code diag ∧ location diag' = location diag
  ∧ args diag' = args diag ∧ ∃ ns, notes diag' = notes diag ++ ns.
Proof.
  induction frames as [|f fs IH]; intros diag diag' Hr; simpl in Hr.
  - simplify_eq. repeat split. exists []. by rewrite app_nil_r.
  - destruct (reportFrame hp diag f) as [d1|] eqn:Hf; [|done].
    apply reportFrame_keeps in Hf as (Hc1 & Hl1 & Ha1 & ns1 & Hn1).
    apply IH in Hr as (Hc2 & Hl2 & Ha2 & ns2 & Hn2).
    split_and!; [congruence..|].
    exists (ns1 ++ ns2). by rewrite Hn2, Hn1, app_assoc.
Qed.

Lemma reportStack_keeps s diag diag' :
  reportStack s diag = Some diag' →
  code diag' = code diag ∧ location diag' = location diag
  ∧ args diag' = args diag ∧ ∃ ns, notes diag' = notes diag ++ ns.
Proof.
  unfold reportStack. intros Hr.
  destruct (_ || _).
  - by eapply reportFrames_keeps.
  - destruct (reportFrames _ _ (take _ _)) as [d1|] eqn:H1; [|done].
    destruct (reverse (stack s) !! _) as [f|]; [|done].
    apply reportFrames_keeps in H1 as (Hc1 & Hl1 & Ha1 & ns1 & Hn1).
    apply reportFrames_keeps in Hr as (Hc2 & Hl2 & Ha2 & ns2 & Hn2).
    simpl in *. split_and!; [congruence..|].
    eexists. rewrite Hn2, Hn1, <- !app_assoc. done.
Qed.

Lemma reportStack_bound s :
  stack_bound s → ∃ ns, ∀ diag, reportStack s diag = Some (add_notes diag ns).
Proof.
  intros Hb.
  destruct (decide (N.of_nat (length (stack s))
                    ≤ maxConstexprBacktrace (options s))%N) as [Hle|Hgt].
  { eexists. intros diag. apply reportStack_full; auto. }
  destruct (decide (maxConstexprBacktrace (options s) = 0%N)) as [Hz|Hnz].
  { eexists. intros diag. apply reportStack_full; auto. }
  assert (maxConstexprBacktrace (options s)
          < N.of_nat (length (stack s)))%N as Hlt by lia.
  destruct (reportStack_elided s (newDiagnostic NoteInCallTo (AtLocation 0%N))
              Hb Hnz Hlt) as (frame & Hframe & _).
  eexists. intros diag.
  destruct (reportStack_elided s diag Hb Hnz Hlt) as (frame' & Hframe' & ->).
  rewrite Hframe in Hframe'. by simplify_eq.
Qed.

(** *** Counting the notes of a backtrace *)

Lemma count_code_app c ns ms :
  count_code c (ns ++ ms) = (count_code c ns + count_code c ms)%nat.
Proof. unfold count_code. by rewrite filter_app, length_app. Qed.

Lemma frame_note_cases hp frame :
  frame_bound hp frame = true →
  (has_subroutine frame = false ∧ frame_note hp frame = [])
  ∨ (has_subroutine frame = true
     ∧ ∃ text, frame_note hp frame
         = [shl (newDiagnostic NoteInCallTo
                   (AtLocation (callLocation frame))) (ArgText text)]).
Proof.
  unfold frame_bound, frame_note, has_subroutine. intros Hb.
  destruct (subroutine frame) as [sub|]; [right|by left].
  destruct (appendArguments_bound hp frame (last (getArguments sub))
              (getArguments sub) (sub_name sub +:+ "(") Hb) as [b ->].
  eauto.
Qed.

Lemma count_frame_notes hp frames :
  Forall (λ frame, frame_bound hp frame = true) frames →
  count_code NoteInCallTo (flat_map (frame_note hp) frames)
  = count_called frames
  ∧ count_code NoteSkippingFrames (flat_map (frame_note hp) frames) = 0%nat.
Proof.
  unfold count_called.
  induction 1 as [|f fs Hf Hfs [IH1 IH2]]; [done|]. simpl.
  rewrite !count_code_app, IH1, IH2.
  destruct (frame_note_cases hp f Hf) as [[Hs ->]|[Hs [text ->]]].
  - rewrite filter_cons_False by congruence. done.
  - rewrite filter_cons_True by done. done.
Qed.

Lemma called_notes_length hp frames :
  Forall (λ frame, frame_bound hp frame = true) frames →
  length (flat_map (frame_note hp) frames) = count_called frames.
Proof.
  unfold count_called.
  induction 1 as [|f fs Hf Hfs IH]; [done|]. simpl.
  rewrite length_app, IH.
  destruct (frame_note_cases hp f Hf) as [[Hs ->]|[Hs [text ->]]].
  - rewrite filter_cons_False by congruence. done.
  - rewrite filter_cons_True by done. done.
Qed.

Lemma count_called_all frames :
  count_called frames = length frames
  ↔ Forall (λ frame, has_subroutine frame = true) frames.
Proof.
  unfold count_called.
  induction frames as [|f fs IH]; [by split|].
  pose proof (length_filter (λ frame, has_subroutine frame = true) fs).
  destruct (decide (has_subroutine f = true)) as [Hf|Hf].
  - rewrite filter_cons_True by done. simpl. split.
    + intros [= Hlen]. constructor; [done|]. by apply IH.
    + intros Hall. f_equal. apply IH. by apply Forall_cons in Hall as [_ ?].
  - rewrite filter_cons_False by done. simpl. split; [lia|].
    intros Hall. by apply Forall_cons in Hall as [? _].
Qed.

Lemma addDiag_bound c w s ns :
  (∀ diag, reportStack s diag = Some (add_notes diag ns)) →
  addDiag c w s
  = Some (tt, set_diags (diags s ++ [add_notes (newDiagnostic c w) ns]) s).
Proof. intros Hr. unfold addDiag. by rewrite Hr. Qed.

Lemma addDiagArg_last a ds diag s :
  diags s = ds ++ [diag] →
  addDiagArg a s = Some (tt, set_diags (ds ++ [shl diag a]) s).
Proof.
  intros Hd. unfold addDiagArg. rewrite Hd, last_snoc, removelast_last. done.
Qed.

(** *** pushFrame *)

(** C2. When the frame stack holds at least [maxConstexprDepth] frames,
    [pushFrame] returns false and changes nothing but the diagnostics, to
    which it appends one [ConstEvalExceededMaxCallDepth] at the location of
    the subroutine, with the limit as its argument: the frame stack is the
    same. Below the limit it returns true and the stack has exactly one
    more frame, that of the call, while the diagnostics are the same. *)
Theorem pushFrame_depth_limit s sub callLoc lookupLoc :
  stack_bound s →
  let maxDepth := maxConstexprDepth (options s) in
  ((maxDepth ≤ N.of_nat (length (stack s)))%N →
   ∃ diag,
     pushFrame sub callLoc lookupLoc s
     = Some (false, set_diags (diags s ++ [diag]) s)
     ∧ stack (set_diags (diags s ++ [diag]) s) = stack s
     ∧ code diag = ConstEvalExceededMaxCallDepth
     ∧ location diag = AtLocation (sub_location sub)
     ∧ args diag = [ArgNum maxDepth])
  ∧ ((N.of_nat (length (stack s)) < maxDepth)%N →
     let frame := {| temporaries := ∅; subroutine := Some sub;
                     callLocation := callLoc;
                     lookupLocation := lookupLoc |} in
     pushFrame sub callLoc lookupLoc s
     = Some (true, set_stack (stack s ++ [frame]) s)
     ∧ length (stack s ++ [frame]) = S (length (stack s))
     ∧ diags (set_stack (stack s ++ [frame]) s) = diags s).
Proof.
  intros Hb maxDepth. split; intros Hdepth; unfold pushFrame; fold maxDepth.
  - assert ((maxDepth <=? N.of_nat (length (stack s)))%N = true) as ->
      by by apply N.leb_le.
    destruct (reportStack_bound s Hb) as [ns Hns].
    exists (shl (add_notes (newDiagnostic ConstEvalExceededMaxCallDepth
                              (AtLocation (sub_location sub))) ns)
                (ArgNum maxDepth)).
    split; [|done].
    unfold bind. rewrite (addDiag_bound _ _ _ _ Hns).
    erewrite addDiagArg_last by reflexivity. done.
  - assert ((maxDepth <=? N.of_nat (length (stack s)))%N = false) as ->
      by by apply N.leb_gt.
    cbv zeta. split_and!; [done| |done].
    rewrite length_app. simpl. lia.
Qed.

(** *** step *)

Lemma step_cases s l :
  stack_bound s →
  let n := ((steps s + 1) mod 2 ^ steps_bits)%N in
  ((n < maxConstexprSteps (options s))%N
   ∧ step l s = Some (true, set_steps n s))
  ∨ ((maxConstexprSteps (options s) ≤ n)%N
     ∧ ∃ diag,
         step l s
         = Some (false, set_diags (diags s ++ [diag]) (set_steps n s))
         ∧ code diag = ConstEvalExceededMaxSteps
         ∧ location diag = AtLocation l).
Proof.
  intros Hb n. unfold step. fold n. simpl.
  destruct (n <? maxConstexprSteps (options s))%N eqn:Hn.
  - left. split; [by apply N.ltb_lt|done].
  - right. split; [by apply N.ltb_ge|].
    destruct (reportStack_bound (set_steps n s) Hb) as [ns Hns].
    eexists. unfold bind. rewrite (addDiag_bound _ _ _ _ Hns). done.
Qed.

Lemma steps_loop_exceeds l n : ∀ s,
  stack_bound s →
  (maxConstexprSteps (options s) < 2 ^ steps_bits)%N →
  (steps s < maxConstexprSteps (options s))%N
  ∨ maxConstexprSteps (options s) = 0%N →
  (maxConstexprSteps (options s) ≤ steps s + N.of_nat n)%N →
  (1 ≤ n)%nat →
  ∃ s' diag,
    steps_loop n l s = Some (false, s')
    ∧ last (diags s') = Some diag
    ∧ code diag = ConstEvalExceededMaxSteps
    ∧ stack s' = stack s.
Proof.
  induction n as [|n IH]; intros s Hb Hrep Hstart Hn Hpos; [lia|].
  simpl. unfold bind.
  destruct (step_cases s l Hb) as [[Hlt ->]|[Hge (diag & -> & Hc & _)]].
  - assert ((steps s + 1) mod 2 ^ steps_bits = steps s + 1)%N as Hmod.
    { apply N.mod_small. destruct Hstart as [Hs|Hz].
      - revert Hs Hrep. generalize (2 ^ steps_bits)%N. intros; lia.
      - rewrite Hz in Hlt. by apply N.nlt_0_r in Hlt. }
    rewrite Hmod in *.
    destruct (IH (set_steps (steps s + 1) s)) as (s' & diag & -> & ? & ? & ?);
      simpl; try done; try lia.
    by exists s', diag.
  - eexists _, diag. split; [done|]. simpl. by rewrite last_snoc.
Qed.

(** C3. Every call of [step] adds one to the step counter (in the
    arithmetic of the unsigned counter, so by exactly one short of its
    largest value). It returns true exactly when the new count is below
    [maxConstexprSteps], changing nothing else; otherwise it returns false
    and appends one [ConstEvalExceededMaxSteps] at the given location.
    Hence an evaluation that starts with a zero counter and calls [step]
    more often than the limit (a limit that the counter can hold) is
    stopped by a false return, with that diagnostic as the last one. *)
Theorem step_counts_and_limits s l :
  stack_bound s →
  let n := ((steps s + 1) mod 2 ^ steps_bits)%N in
  let limit := maxConstexprSteps (options s) in
  (∃ ok s',
     step l s = Some (ok, s')
     ∧ steps s' = n
     ∧ ((steps s + 1 < 2 ^ steps_bits)%N → steps s' = (steps s + 1)%N)
     ∧ (ok = true ↔ (steps s' < limit)%N)
     ∧ (ok = true → s' = set_steps n s)
     ∧ (ok = false →
        ∃ diag,
          s' = set_diags (diags s ++ [diag]) (set_steps n s)
          ∧ code diag = ConstEvalExceededMaxSteps
          ∧ location diag = AtLocation l))
  ∧ (∀ calls : nat,
       steps s = 0%N → (limit < 2 ^ steps_bits)%N →
       (limit < N.of_nat calls)%N →
       ∃ s' diag,
         steps_loop calls l s = Some (false, s')
         ∧ last (diags s') = Some diag
         ∧ code diag = ConstEvalExceededMaxSteps).
Proof.
  intros Hb n limit. split.
  - destruct (step_cases s l Hb) as [[Hlt Hs]|[Hge (diag & Hs & Hc & Hl)]].
    + exists true, (set_steps n s). fold n in Hs, Hlt. fold limit in Hlt.
      split_and!; try done.
      intros Hsmall. simpl. unfold n. by apply N.mod_small.
    + exists false, (set_diags (diags s ++ [diag]) (set_steps n s)).
      fold n in Hs, Hge. fold limit in Hge.
      split_and!; try done.
      * intros Hsmall. simpl. unfold n. by apply N.mod_small.
      * simpl. split; [done|]. lia.
      * intros _. by exists diag.
  - intros calls Hzero Hrep Hcalls.
    clear n. subst limit. revert Hrep Hcalls.
    generalize (eq_refl (maxConstexprSteps (options s))).
    generalize (maxConstexprSteps (options s)) at 2 3 4 as limit.
    intros limit Hlimit Hrep Hcalls.
    destruct (steps_loop_exceeds l calls s) as (s' & diag & ? & ? & ? & ?);
      rewrite ?Hlimit, ?Hzero; try done.
    + destruct (decide (limit = 0%N)); [by right|left; lia].
    + clear Hrep. lia.
    + clear Hrep. lia.
    + by exists s', diag.
Qed.

(** *** Backtraces *)

Lemma addDiag_spec c w s :
  stack_bound s →
  ∃ ns,
    (∀ diag, reportStack s diag = Some (add_notes diag ns))
    ∧ addDiag c w s
      = Some (tt, set_diags (diags s ++ [add_notes (newDiagnostic c w) ns]) s).
Proof.
  intros Hb. destruct (reportStack_bound s Hb) as [ns Hns].
  exists ns. split; [done|]. by apply addDiag_bound.
Qed.

(** C4, as the code has it. A diagnostic recorded at depth D over a
    nonzero limit L < D gets, in this order: the call notes of the first
    ⌊L/2⌋ frames of the display order, one elision note that cites D - L
    frames, and the call notes of the last ⌈L/2⌉ frames; when D ≤ L it gets
    the call notes of all frames and no elision note. A frame contributes
    a call note only if it has a subroutine, so that the number of call
    notes is the number of such frames among those selected. *)
Theorem addDiag_backtrace_elision c w s :
  stack_bound s →
  let L := maxConstexprBacktrace (options s) in
  let D := N.of_nat (length (stack s)) in
  let first_half := take (N.to_nat (L / 2)) (display_order s) in
  let last_half := last_n (N.to_nat ((L + 1) / 2)) (display_order s) in
  ∃ diag,
    addDiag c w s = Some (tt, set_diags (diags s ++ [diag]) s)
    ∧ code diag = c ∧ location diag = w
    ∧ (L ≠ 0%N → (L < D)%N →
       ∃ frame,
         display_order s !! N.to_nat (L / 2) = Some frame
         ∧ notes diag
           = flat_map (frame_note (heap s)) first_half
             ++ elision_note frame (D - L)
             :: flat_map (frame_note (heap s)) last_half
         ∧ count_code NoteInCallTo (notes diag)
           = (count_called first_half + count_called last_half)%nat
         ∧ count_code NoteSkippingFrames (notes diag) = 1%nat)
    ∧ ((D ≤ L)%N →
       notes diag = flat_map (frame_note (heap s)) (display_order s)
       ∧ count_code NoteInCallTo (notes diag)
         = count_called (display_order s)
       ∧ count_code NoteSkippingFrames (notes diag) = 0%nat).
Proof.
  intros Hb L D first_half last_half.
  destruct (addDiag_spec c w s Hb) as (ns & Hns & ->).
  assert (Forall (λ frame, frame_bound (heap s) frame = true)
            (display_order s)) as Hd by by apply Forall_reverse.
  eexists. split; [done|]. split; [done|]. split; [done|]. simpl. split.
  - intros Hnz Hlt.
    destruct (reportStack_elided s (newDiagnostic c w) Hb Hnz Hlt)
      as (frame & Hframe & Hr).
    rewrite Hns in Hr. injection Hr as Hr. simpl in Hr.
    fold L D first_half last_half in Hr. rewrite Hr.
    exists frame. split; [done|]. split; [done|].
    rewrite !count_code_app. change (elision_note frame (D - L) :: ?l)
      with ([elision_note frame (D - L)] ++ l).
    rewrite !count_code_app.
    destruct (count_frame_notes (heap s) first_half) as [-> ->].
    { by apply Forall_take. }
    destruct (count_frame_notes (heap s) last_half) as [-> ->].
    { by apply Forall_drop. }
    split; reflexivity.
  - intros Hle.
    pose proof (reportStack_full s (newDiagnostic c w) Hb (or_introl Hle))
      as Hr.
    rewrite Hns in Hr. injection Hr as Hr. simpl in Hr. rewrite Hr.
    destruct (count_frame_notes (heap s) (display_order s) Hd) as [-> ->].
    done.
Qed.

(** C10. With the backtrace limit set to 0, a diagnostic recorded at any
    depth of the frame stack gets the call notes of all the frames of the
    stack that have a subroutine, the most recent call first, none left
    out for its position, and no elision note. A frame without a
    subroutine has no note, so the backtrace has one note for every frame
    of the stack only when every frame is a call. *)
Theorem addDiag_backtrace_unlimited c w s :
  stack_bound s →
  maxConstexprBacktrace (options s) = 0%N →
  ∃ diag,
    addDiag c w s = Some (tt, set_diags (diags s ++ [diag]) s)
    ∧ code diag = c ∧ location diag = w
    ∧ notes diag = flat_map (frame_note (heap s)) (display_order s)
    ∧ count_code NoteInCallTo (notes diag) = count_called (stack s)
    ∧ count_code NoteSkippingFrames (notes diag) = 0%nat
    ∧ length (notes diag) = count_called (stack s)
    ∧ (length (notes diag) = length (stack s)
       ↔ Forall (λ frame, has_subroutine frame = true) (stack s)).
Proof.
  intros Hb Hzero.
  destruct (addDiag_spec c w s Hb) as (ns & Hns & ->).
  pose proof (reportStack_full s (newDiagnostic c w) Hb (or_intror Hzero))
    as Hr.
  rewrite Hns in Hr. injection Hr as Hr. simpl in Hr.
  eexists. split; [done|]. simpl. rewrite Hr.
  destruct (count_frame_notes (heap s) (display_order s)) as [Hcalls Hskip].
  { by apply Forall_reverse. }
  assert (count_called (display_order s) = count_called (stack s)) as Hrev.
  { unfold count_called, display_order.
    by rewrite filter_reverse, length_reverse. }
  assert (length (flat_map (frame_note (heap s)) (display_order s))
          = count_called (stack s)) as Hlen.
  { rewrite <- Hrev. apply called_notes_length. by apply Forall_reverse. }
  rewrite Hcalls, Hskip, Hlen, Hrev. split_and!; try done.
  apply count_called_all.
Qed.

(** *** addDiags *)

Lemma addDiags_from_rest rest : ∀ s,
  addDiags_from false rest s = Some (tt, set_diags (diags s ++ rest) s).
Proof.
  induction rest as [|diag rest IH]; intros s; simpl.
  - unfold ret. rewrite app_nil_r. by destruct s.
  - unfold bind, modify. rewrite IH. simpl.
    by rewrite <- app_assoc.
Qed.

(** C9. [addDiags] attaches the backtrace of the current frame stack (the
    notes that [reportStack] adds to any diagnostic in this state) to the
    first diagnostic of the batch only; the diagnostics after it are
    appended as they are, in their order: read after the call, the
    diagnostics of the context are those of before, then the first of the
    batch with the backtrace, then the others; the frames and the values
    are untouched. *)
Theorem addDiags_backtrace_first_only s diag rest :
  stack_bound s →
  ∃ ns s',
    (∀ d, reportStack s d = Some (add_notes d ns))
    ∧ addDiags (diag :: rest) s = Some (tt, s')
    ∧ s' = set_diags (diags s ++ add_notes diag ns :: rest) s
    ∧ diags s' = diags s ++ add_notes diag ns :: rest
    ∧ stack s' = stack s ∧ heap s' = heap s
    ∧ addDiags [] s = Some (tt, s).
Proof.
  intros Hb. destruct (reportStack_bound s Hb) as [ns Hns].
  exists ns, (set_diags (diags s ++ add_notes diag ns :: rest) s).
  split; [done|]. split; [|done].
  unfold addDiags. simpl. rewrite Hns, addDiags_from_rest. simpl.
  by rewrite <- app_assoc.
Qed.

End EvalContextFacts.

Section Sorting.
Context {A : Type} (less : A → A → bool).

Lemma sort_insert_perm x l : sort_insert less x l ≡ₚ x :: l.
Proof.
  induction l as [|y l IH]; simpl; [done|].
  destruct (less y x); [|done].
  rewrite IH. apply Permutation_swap.
Qed.

Lemma std_sort_perm l : std_sort less l ≡ₚ l.
Proof.
  unfold std_sort. induction l as [|x l IH]; simpl; [done|].
  by rewrite sort_insert_perm, IH.
Qed.

Lemma strict_total_on_subseteq l l' :
  l' ⊆ l → strict_total_on less l → strict_total_on less l'.
Proof.
  intros Hsub (Hirr & Htrans & Hconn). split_and!.
  - intros a Ha. apply Hirr. by apply Hsub.
  - intros a b c Ha Hb Hc. apply Htrans; by apply Hsub.
  - intros a b Ha Hb. apply Hconn; by apply Hsub.
Qed.

Lemma strict_total_on_perm l l' :
  l ≡ₚ l' → strict_total_on less l → strict_total_on less l'.
Proof.
  intros Hp. apply strict_total_on_subseteq. intros a. by rewrite Hp.
Qed.

Lemma strict_total_on_asym l a b :
  strict_total_on less l → a ∈ l → b ∈ l →
  less a b = true → less b a = false.
Proof.
  intros (Hirr & Htrans & _) Ha Hb Hab.
  destruct (less b a) eqn:Hba; [|done].
  pose proof (Htrans a b a Ha Hb Ha Hab Hba) as Haa.
  rewrite (Hirr a Ha) in Haa. done.
Qed.

Lemma sort_insert_sorted x l :
  strict_total_on less (x :: l) →
  StronglySorted (ascending less) l →
  StronglySorted (ascending less) (sort_insert less x l).
Proof.
  intros Hord Hs. induction Hs as [|y l Hs IH Hy]; simpl.
  { repeat constructor. }
  assert (x ∈ x :: y :: l) as Hx by by left.
  assert (y ∈ x :: y :: l) as Hyin by (right; by left).
  destruct (less y x) eqn:Hyx.
  - constructor.
    + apply IH. eapply strict_total_on_subseteq; [|exact Hord].
      intros a Ha. inv Ha; [by left|right; by right].
    + rewrite sort_insert_perm. constructor; [|done].
      unfold ascending. by eapply strict_total_on_asym.
  - constructor; [by constructor|].
    constructor; [done|].
    rewrite Forall_forall in Hy |- *. intros z Hz.
    assert (z ∈ x :: y :: l) as Hzin by (right; by right).
    unfold ascending in *. destruct (less z x) eqn:Hzx; [|done].
    destruct Hord as (Hirr & Htrans & Hconn).
    destruct (less y z) eqn:Hyz.
    + by rewrite (Htrans y z x Hyin Hzin Hx Hyz Hzx) in Hyx.
    + rewrite (Hconn y z Hyin Hzin Hyz (Hy z Hz)) in Hyx. congruence.
Qed.

Lemma std_sort_sorted l :
  strict_total_on less l →
  StronglySorted (ascending less) (std_sort less l).
Proof.
  unfold std_sort. induction l as [|x l IH]; intros Hord; simpl.
  { constructor. }
  apply sort_insert_sorted.
  - eapply strict_total_on_perm; [|exact Hord].
    constructor. symmetry. apply std_sort_perm.
  - apply IH. eapply strict_total_on_subseteq; [|exact Hord].
    intros a Ha. by right.
Qed.

(** Any sequence that [std::sort] may leave is the one of [std_sort]. *)
Lemma sorted_perm_is_std_sort l l' :
  strict_total_on less l →
  l' ≡ₚ l → StronglySorted (ascending less) l' →
  l' = std_sort less l.
Proof.
  intros Hord Hp Hs.
  apply (StronglySorted_unique_strong (ascending less)); [|done| |].
  - intros a b Ha Hb Hab Hba. destruct Hord as (_ & _ & Hconn).
    rewrite Hp in Ha. rewrite std_sort_perm in Hb.
    unfold ascending in *. by apply Hconn.
  - by apply std_sort_sorted.
  - by rewrite std_sort_perm.
Qed.

Lemma std_sort_perm_eq l l' :
  strict_total_on less l → l ≡ₚ l' → std_sort less l' = std_sort less l.
Proof.
  intros Hord Hp. apply sorted_perm_is_std_sort; [done| |].
  - by rewrite std_sort_perm.
  - apply std_sort_sorted. by eapply strict_total_on_perm.
Qed.

Lemma StronglySorted_reverse (R : relation A) l :
  StronglySorted R l → StronglySorted (flip R) (reverse l).
Proof.
  induction 1 as [|x l Hs IH Hx]; [constructor|].
  rewrite reverse_cons. apply StronglySorted_app_2; [|done|].
  - intros a b Ha Hb. apply list_elem_of_singleton in Hb as ->.
    rewrite elem_of_reverse in Ha. rewrite Forall_forall in Hx.
    unfold flip. by apply Hx.
  - repeat constructor.
Qed.

End Sorting.

(** What a write through a resolved lvalue does to the context: the
    location holds the value written, every other location holds what it
    held, and the diagnostics and the frames are as before. *)
Lemma store_read_back t v s :
  heap (store t v s) !! t = Some v
  ∧ (∀ l, l ≠ t → heap (store t v s) !! l = heap s !! l)
  ∧ diags (store t v s) = diags s
  ∧ stack (store t v s) = stack s.
Proof.
  split_and!; [apply lookup_insert_eq| |done|done].
  intros l Hl. by apply lookup_insert_ne.
Qed.

Section ArrayMethodsFacts.
Context {ext : Externals}.

(** Runs an [eval] on the outcomes that the hypotheses give for the
    evaluations of its arguments. *)
Ltac run_eval :=
  repeat (unfold bind at 1; simpl;
          repeat match goal with
                 | Hrun : ?m = _ |- context [?m] => rewrite Hrun
                 end; simpl).

(** *** Queues: pop *)

Lemma QueuePop_eval_run front a0 s lval s1 t q :
  evalLValue a0 s = Some (lval, s1) →
  lval_bool lval = true →
  resolve lval (heap s1) = Some t →
  heap s1 !! t = Some (CVQueue q) →
  QueuePopMethod_eval front [a0] s
  = (if bool_decide (q = []) then
       let* _ := addDiag ConstEvalEmptyQueue (AtRange (sourceRange a0)) in
       let* elemType := lift (getArrayElementType (expr_type a0)) in
       ret (getDefaultValue elemType)
     else
       let* result := lift (if front then head q else last q) in
       let* _ := modify (store t (CVQueue
                   (if front then tail q else removelast q))) in
       ret result) s1.
Proof.
  intros Hlv Hvalid Hres Hq.
  unfold QueuePopMethod_eval, arg, resolve_in, target_queue, deref.
  run_eval. done.
Qed.


(** *** Queues: push *)

Lemma QueuePush_eval_run front a0 a1 s lval s1 x s2 t q :
  evalLValue a0 s = Some (lval, s1) →
  eval a1 s1 = Some (x, s2) →
  lval_bool lval = true → cv_bool x = true →
  resolve lval (heap s2) = Some t →
  heap s2 !! t = Some (CVQueue q) →
  QueuePushMethod_eval front [a0; a1] s
  = Some (CVUnset,
          store t (CVQueue (if front then x :: q else q ++ [x])) s2).
Proof.
  intros Hlv Hx Hvalid Hset Hres Hq.
  unfold QueuePushMethod_eval, arg, resolve_in, target_queue, deref.
  run_eval. done.
Qed.

(** C7. [push_back(x)] followed by [pop_back()] on the same queue returns
    [x] and leaves the queue with the elements, hence the size, that it had
    before the push. The receiver expression is evaluated once by each
    call; both evaluations resolve to the queue. *)
Theorem push_back_then_pop_back a0 a1 s lval s1 x s2 t q lval' s4 :
  evalLValue a0 s = Some (lval, s1) →
  eval a1 s1 = Some (x, s2) →
  lval_bool lval = true → cv_bool x = true →
  resolve lval (heap s2) = Some t →
  heap s2 !! t = Some (CVQueue q) →
  let pushed := store t (CVQueue (q ++ [x])) s2 in
  evalLValue a0 pushed = Some (lval', s4) →
  lval_bool lval' = true →
  resolve lval' (heap s4) = Some t →
  heap s4 !! t = Some (CVQueue (q ++ [x])) →
  QueuePushMethod_eval false [a0; a1] s = Some (CVUnset, pushed)
  ∧ ∃ s5,
      QueuePopMethod_eval false [a0] pushed = Some (x, s5)
      ∧ heap s5 !! t = Some (CVQueue q)
      ∧ heap s5 = <[t := CVQueue q]> (heap s4).
Proof.
  intros Hlv Hx Hvalid Hset Hres Hq pushed Hlv' Hvalid' Hres' Hq'.
  split.
  - by rewrite (QueuePush_eval_run false a0 a1 s lval s1 x s2 t q).
  - exists (store t (CVQueue q) s4).
    rewrite (QueuePop_eval_run false a0 pushed lval' s4 t (q ++ [x])) by done.
    rewrite bool_decide_eq_false_2 by (by destruct q).
    unfold bind, lift, modify, ret. rewrite last_snoc, removelast_last.
    simpl. by rewrite lookup_insert_eq.
Qed.

(** *** Queues: insert *)

Lemma QueueInsert_eval_run a0 a1 a2 s lval s1 ci i s2 cv s3 t q :
  evalLValue a0 s = Some (lval, s1) →
  eval a1 s1 = Some (ci, s2) →
  eval a2 s2 = Some (cv, s3) →
  lval_bool lval = true → ci = CVInteger i → cv_bool cv = true →
  resolve lval (heap s3) = Some t →
  heap s3 !! t = Some (CVQueue q) →
  QueueInsertMethod_eval [a0; a1; a2] s
  = (let index := as_int32 i in
     let bound := (N.of_nat (length q) + 1)%N in
     if index_out_of_range index bound then
       let* _ := addDiag ConstEvalDynamicArrayIndex
                   (AtRange (sourceRange a1)) in
       let* _ := addDiagArg (ArgValue ci) in
       let* _ := addDiagArg (ArgType (expr_type a0)) in
       let* _ := addDiagArg (ArgNum bound) in
       ret CVUnset
     else
       let n := Z.to_nat (default 0%Z index) in
       let* _ := modify (store t (CVQueue (take n q ++ cv :: drop n q))) in
       ret CVUnset) s3.
Proof.
  intros Hlv Hci Hcv Hvalid -> Hset Hres Hq.
  unfold QueueInsertMethod_eval, arg, resolve_in, target_queue, deref.
  run_eval. done.
Qed.

Lemma insert_at_shifts {A} (n : nat) (x : A) (q : list A) :
  (n ≤ length q)%nat →
  let q' := take n q ++ x :: drop n q in
  length q' = S (length q)
  ∧ q' !! n = Some x
  ∧ (∀ j, (j < n)%nat → q' !! j = q !! j)
  ∧ (∀ j, (n ≤ j)%nat → q' !! S j = q !! j).
Proof.
  intros Hn q'. unfold q'. split_and!.
  - rewrite length_app, length_take. simpl. rewrite length_drop. lia.
  - rewrite lookup_app_r by (rewrite length_take; lia).
    rewrite length_take. by replace (n - n `min` length q)%nat with 0%nat
      by lia.
  - intros j Hj. rewrite lookup_app_l by (rewrite length_take; lia).
    by rewrite lookup_take_lt.
  - intros j Hj. rewrite lookup_app_r by (rewrite length_take; lia).
    rewrite length_take.
    replace (S j - n `min` length q)%nat with (S (j - n)) by lia.
    simpl. rewrite lookup_drop. f_equal. lia.
Qed.

(** C5. [insert(i, v)] on a queue of [n] elements with [0 ≤ i ≤ n] makes
    [v] the element at position [i]: read after the call, the queue holds
    the elements before [i] in their place, [v] at [i], and those from [i]
    on moved up by one; the other locations and the diagnostics are as
    before. With any other index (one
    below 0, above [n], or not an [int32_t] at all) it appends one
    [ConstEvalDynamicArrayIndex] at the range of the index argument and
    changes nothing else, so the queue is as before. *)
Theorem QueueInsert_eval_spec a0 a1 a2 s lval s1 ci i s2 cv s3 t q :
  evalLValue a0 s = Some (lval, s1) →
  eval a1 s1 = Some (ci, s2) →
  eval a2 s2 = Some (cv, s3) →
  lval_bool lval = true → ci = CVInteger i → cv_bool cv = true →
  resolve lval (heap s3) = Some t →
  heap s3 !! t = Some (CVQueue q) →
  stack_bound s3 →
  (∀ n : nat, as_int32 i = Some (Z.of_nat n) → (n ≤ length q)%nat →
     let q' := take n q ++ cv :: drop n q in
     ∃ s',
       QueueInsertMethod_eval [a0; a1; a2] s = Some (CVUnset, s')
       ∧ s' = store t (CVQueue q') s3
       ∧ heap s' !! t = Some (CVQueue q')
       ∧ (∀ l, l ≠ t → heap s' !! l = heap s3 !! l)
       ∧ diags s' = diags s3
       ∧ length q' = S (length q)
       ∧ q' !! n = Some cv
       ∧ (∀ j, (j < n)%nat → q' !! j = q !! j)
       ∧ (∀ j, (n ≤ j)%nat → q' !! S j = q !! j))
  ∧ ((as_int32 i = None
      ∨ ∃ z, as_int32 i = Some z ∧ (z < 0 ∨ Z.of_nat (length q) < z)%Z) →
     ∃ diag,
       QueueInsertMethod_eval [a0; a1; a2] s
       = Some (CVUnset, set_diags (diags s3 ++ [diag]) s3)
       ∧ code diag = ConstEvalDynamicArrayIndex
       ∧ location diag = AtRange (sourceRange a1)
       ∧ heap (set_diags (diags s3 ++ [diag]) s3) !! t = Some (CVQueue q)).
Proof.
  intros Hlv Hci Hcv Hvalid Hint Hset Hres Hq Hb.
  rewrite (QueueInsert_eval_run a0 a1 a2 s lval s1 ci i s2 cv s3 t q)
    by done.
  split.
  - intros n Hi Hn q'. exists (store t (CVQueue q') s3).
    destruct (store_read_back t (CVQueue q') s3) as (? & ? & ? & _).
    split; [|split_and!; try done; by apply insert_at_shifts].
    simpl. rewrite Hi. unfold index_out_of_range.
    assert ((Z.of_nat n <? 0)%Z
            || (N.of_nat (length q) + 1 <=? Z.to_N (Z.of_nat n))%N = false)
      as ->.
    { apply orb_false_iff. split; [apply Z.ltb_ge|apply N.leb_gt]; lia. }
    simpl. by rewrite Nat2Z.id.
  - intros Hout. simpl.
    assert (index_out_of_range (as_int32 i) (N.of_nat (length q) + 1) = true)
      as ->.
    { unfold index_out_of_range.
      destruct Hout as [->|(z & -> & Hz)]; [done|].
      apply orb_true_iff.
      destruct Hz; [left; apply Z.ltb_lt|right; apply N.leb_le]; lia. }
    destruct (addDiag_spec ConstEvalDynamicArrayIndex
                (AtRange (sourceRange a1)) s3 Hb) as (ns & _ & Hd).
    unfold bind at 1. rewrite Hd.
    unfold bind at 1. erewrite addDiagArg_last by reflexivity.
    unfold bind at 1. erewrite addDiagArg_last by reflexivity.
    unfold bind at 1. erewrite addDiagArg_last by reflexivity.
    eexists. split; [done|]. done.
Qed.

(** *** sort and rsort *)

Lemma ArraySort_eval_run reversed a0 callInfo s lval s1 t q :
  iterExpr callInfo = None →
  evalLValue a0 s = Some (lval, s1) →
  lval_bool lval = true →
  resolve lval (heap s1) = Some t →
  heap s1 !! t = Some (CVQueue q) →
  ArraySortMethod_eval reversed [a0] callInfo s
  = Some (CVUnset, store t (CVQueue (sortTarget reversed q)) s1).
Proof.
  intros Hiter Hlv Hvalid Hres Hq.
  unfold ArraySortMethod_eval, arg, resolve_in, deref.
  run_eval. done.
Qed.

(** C8. On a queue whose elements [operator<] orders totally, [sort()]
    leaves the elements in ascending order and [rsort()], from the same
    contents, leaves them in descending order, in place: read after the
    call, the queue holds the ordered sequence, and the other locations
    and the diagnostics are as before. Each sequence is the reverse of the
    other, and both are permutations of the contents. *)
Theorem sort_is_reverse_of_rsort a0 callInfo s lval s1 t q :
  iterExpr callInfo = None →
  evalLValue a0 s = Some (lval, s1) →
  lval_bool lval = true →
  resolve lval (heap s1) = Some t →
  heap s1 !! t = Some (CVQueue q) →
  strict_total_on cv_less q →
  ∃ sorted rsorted,
    ArraySortMethod_eval false [a0] callInfo s
    = Some (CVUnset, store t (CVQueue sorted) s1)
    ∧ ArraySortMethod_eval true [a0] callInfo s
      = Some (CVUnset, store t (CVQueue rsorted) s1)
    ∧ sorted = reverse rsorted
    ∧ rsorted = reverse sorted
    ∧ sorted ≡ₚ q
    ∧ StronglySorted (ascending cv_less) sorted
    ∧ StronglySorted (descending cv_less) rsorted
    ∧ (∀ reversed s',
         ArraySortMethod_eval reversed [a0] callInfo s = Some (CVUnset, s') →
         heap s' !! t
         = Some (CVQueue (if reversed then rsorted else sorted))
         ∧ (∀ l, l ≠ t → heap s' !! l = heap s1 !! l)
         ∧ diags s' = diags s1).
Proof.
  intros Hiter Hlv Hvalid Hres Hq Hord.
  assert (sortTarget false q = std_sort cv_less q) as Hfalse by done.
  assert (sortTarget true q = reverse (std_sort cv_less q)) as Htrue.
  { unfold sortTarget. f_equal. apply std_sort_perm_eq; [done|].
    symmetry. apply reverse_Permutation. }
  exists (sortTarget false q), (sortTarget true q).
  rewrite !(ArraySort_eval_run _ a0 callInfo s lval s1 t q) by done.
  split_and!; [done|done|..].
  - by rewrite Htrue, Hfalse, reverse_involutive.
  - by rewrite Htrue, Hfalse.
  - rewrite Hfalse. apply std_sort_perm.
  - rewrite Hfalse. by apply std_sort_sorted.
  - rewrite Htrue. apply (StronglySorted_reverse (ascending cv_less)).
    by apply std_sort_sorted.
  - intros reversed s'.
    rewrite (ArraySort_eval_run _ a0 callInfo s lval s1 t q) by done.
    intros [= <-].
    destruct (store_read_back t (CVQueue (sortTarget reversed q)) s1)
      as (Hread & ? & ? & _).
    rewrite Hread. by destruct reversed.
Qed.

(** *** Reductions *)

Lemma ArrayReduction_eval_empty op a0 rest callInfo s arr s1 :
  eval a0 s = Some (arr, s1) →
  cv_bool arr = true → cv_empty arr = true →
  (iterExpr callInfo = None → ∀ elemType,
     getArrayElementType (expr_type a0) = Some elemType →
     ArrayReductionMethod_eval op (a0 :: rest) callInfo s
     = Some (CVInteger (SVInt_of (getBitWidth elemType) 0
                          (isSigned elemType)), s1))
  ∧ (∀ ie iv, iterExpr callInfo = Some ie → iterVar callInfo = Some iv →
       ArrayReductionMethod_eval op (a0 :: rest) callInfo s
       = Some (CVInteger (SVInt_of (getBitWidth (expr_type ie)) 0
                            (isSigned (expr_type ie))), s1)).
Proof.
  intros Harr Hset Hempty.
  split; [intros Hiter elemType Helem|intros ie iv Hiter Hvar];
    unfold ArrayReductionMethod_eval, arg;
    unfold bind at 1; simpl; unfold bind at 1;
    rewrite Harr, Hset, Hiter; simpl.
  - rewrite Hempty. unfold bind. by rewrite Helem.
  - unfold bind. rewrite Hvar. simpl. by rewrite Hempty.
Qed.

Lemma SVInt_of_zero bits isSigned_ :
  SVInt_of bits 0 isSigned_
  = {| sv_bitWidth := bits; sv_signFlag := isSigned_;
       sv_value := 0%N; sv_unknown := 0%N |}.
Proof. unfold SVInt_of. by rewrite N.Div0.mod_0_l. Qed.

(** C1, as the code has it. On a container without elements every
    registered reduction method ([or], [and], [xor], [sum], [product], for
    each kind of array) returns the integer 0, with no unknown bits, at the
    bit width and signedness of the element type (of the type of the
    iterator expression when there is a [with] clause). *)
Theorem reduction_of_empty_is_zero kind name op a0 rest callInfo s arr s1 :
  (kind, ArrayReductionMethod name op) ∈ registerArrayMethods →
  eval a0 s = Some (arr, s1) →
  cv_bool arr = true → cv_size arr = 0%nat →
  (iterExpr callInfo = None → ∀ elemType,
     getArrayElementType (expr_type a0) = Some elemType →
     SystemMethod_eval (ArrayReductionMethod name op) (a0 :: rest) callInfo s
     = Some (CVInteger {| sv_bitWidth := getBitWidth elemType;
                          sv_signFlag := isSigned elemType;
                          sv_value := 0%N; sv_unknown := 0%N |}, s1))
  ∧ (∀ ie iv, iterExpr callInfo = Some ie → iterVar callInfo = Some iv →
       SystemMethod_eval (ArrayReductionMethod name op) (a0 :: rest)
         callInfo s
       = Some (CVInteger {| sv_bitWidth := getBitWidth (expr_type ie);
                            sv_signFlag := isSigned (expr_type ie);
                            sv_value := 0%N; sv_unknown := 0%N |}, s1)).
Proof.
  intros _ Harr Hset Hsize. simpl.
  assert (cv_empty arr = true) as Hempty
    by (unfold cv_empty; by rewrite Hsize).
  destruct (ArrayReduction_eval_empty op a0 rest callInfo s arr s1
              Harr Hset Hempty) as [Hplain Hwith].
  split.
  - intros Hiter elemType Helem. rewrite <- SVInt_of_zero. by apply Hplain.
  - intros ie iv Hiter Hvar. rewrite <- SVInt_of_zero. by eapply Hwith.
Qed.

End ArrayMethodsFacts.

(** * The properties on the sample inputs *)

Lemma sample_ctx_bound : stack_bound sample_ctx.
Proof. repeat constructor. Qed.

Lemma sample_shallow_ctx_bound : stack_bound sample_shallow_ctx.
Proof. repeat constructor. Qed.

Lemma pushFrame_depth_limit_witness :
  stack_bound sample_ctx
  ∧ (∃ diag,
       pushFrame (ext := sample_externals) sample_sub 103%N 0%N sample_ctx
       = Some (false, set_diags [diag] sample_ctx)
       ∧ code diag = ConstEvalExceededMaxCallDepth)
  ∧ (∃ s',
       pushFrame (ext := sample_externals) sample_sub 101%N 0%N
         sample_shallow_ctx = Some (true, s')
       ∧ length (stack s') = 3%nat).
Proof.
  split; [exact sample_ctx_bound|]. split.
  - destruct (pushFrame_depth_limit (ext := sample_externals) sample_ctx
                sample_sub 103%N 0%N sample_ctx_bound) as [Hfull _].
    destruct Hfull as (diag & Hpush & _ & Hcode & _); [vm_compute; congruence|].
    exists diag. split; [exact Hpush|exact Hcode].
  - destruct (pushFrame_depth_limit (ext := sample_externals)
                sample_shallow_ctx sample_sub 101%N 0%N
                sample_shallow_ctx_bound) as [_ Hroom].
    destruct Hroom as (Hpush & _ & _); [vm_compute; reflexivity|].
    eexists. split; [exact Hpush|reflexivity].
Defined.

Lemma step_counts_and_limits_witness :
  stack_bound sample_ctx
  ∧ (∃ s', step (ext := sample_externals) 5%N sample_ctx = Some (true, s')
           ∧ steps s' = 1%N)
  ∧ (∃ s' diag,
       steps_loop (ext := sample_externals) 4 5%N sample_ctx = Some (false, s')
       ∧ last (diags s') = Some diag
       ∧ code diag = ConstEvalExceededMaxSteps).
Proof.
  split; [exact sample_ctx_bound|].
  destruct (step_counts_and_limits (ext := sample_externals) sample_ctx 5%N
              sample_ctx_bound) as [Hstep Hrun].
  split.
  - destruct Hstep as (ok & s' & Hs & Hn & _ & Hok & _).
    assert (ok = true) as -> by (apply Hok; rewrite Hn; vm_compute; done).
    exists s'. split; [exact Hs|]. rewrite Hn. reflexivity.
  - apply Hrun; vm_compute; done.
Defined.

Lemma addDiag_backtrace_elision_witness :
  stack_bound sample_ctx
  ∧ ∃ diag,
      addDiag (ext := sample_externals) (OtherCode 1) (AtLocation 5%N)
        sample_ctx = Some (tt, set_diags [diag] sample_ctx)
      ∧ count_code NoteInCallTo (notes diag) = 1%nat
      ∧ count_code NoteSkippingFrames (notes diag) = 1%nat.
Proof.
  split; [exact sample_ctx_bound|].
  destruct (addDiag_backtrace_elision (ext := sample_externals) (OtherCode 1)
              (AtLocation 5%N) sample_ctx sample_ctx_bound)
    as (diag & Hadd & _ & _ & Helided & _).
  destruct Helided as (frame & _ & _ & Hcalls & Hskip);
    [vm_compute; congruence|vm_compute; done|].
  exists diag. split; [exact Hadd|]. split; [|exact Hskip].
  rewrite Hcalls. vm_compute. reflexivity.
Defined.

(** C4 as it is stated fails. The stack holds the frame without a
    subroutine of the top level and three calls; the limit is 2. The
    backtrace is the note of the most recent call and the elision note:
    one frame is shown, not ⌊2/2⌋ + ⌈2/2⌉ = 2, since the last frame of the
    display order is the one without a subroutine. *)
Lemma addDiag_backtrace_elision_counterexample :
  let L := maxConstexprBacktrace (options sample_ctx) in
  let D := N.of_nat (length (stack sample_ctx)) in
  let recorded :=
    addDiag (ext := sample_externals) (OtherCode 1) (AtLocation 5%N)
      sample_ctx in
  L = 2%N ∧ D = 4%N ∧ count_called (stack sample_ctx) = 3%nat
  ∧ is_Some recorded
  ∧ recorded_notes recorded
    = [shl (newDiagnostic NoteInCallTo (AtLocation 102%N)) (ArgText "f(1)");
       shl (newDiagnostic NoteSkippingFrames (AtLocation 101%N)) (ArgNum 2)]
  ∧ count_code NoteInCallTo (recorded_notes recorded) = 1%nat
  ∧ count_code NoteInCallTo (recorded_notes recorded)
    ≠ (N.to_nat (L / 2) + N.to_nat ((L + 1) / 2))%nat.
Proof.
  vm_compute. split_and!; try done. by eexists.
Qed.

Lemma addDiag_backtrace_unlimited_witness :
  stack_bound sample_unlimited_ctx
  ∧ maxConstexprBacktrace (options sample_unlimited_ctx) = 0%N
  ∧ ∃ diag,
      addDiag (ext := sample_externals) (OtherCode 1) (AtLocation 5%N)
        sample_unlimited_ctx
      = Some (tt, set_diags [diag] sample_unlimited_ctx)
      ∧ count_code NoteInCallTo (notes diag) = 3%nat
      ∧ count_code NoteSkippingFrames (notes diag) = 0%nat
      ∧ length (notes diag) = 3%nat.
Proof.
  assert (stack_bound sample_unlimited_ctx) as Hb by repeat constructor.
  split; [exact Hb|]. split; [reflexivity|].
  destruct (addDiag_backtrace_unlimited (ext := sample_externals) (OtherCode 1)
              (AtLocation 5%N) sample_unlimited_ctx Hb eq_refl)
    as (diag & Hadd & _ & _ & _ & Hcalls & Hskip & Hlength & _).
  exists diag. split; [exact Hadd|]. split; [|split; [exact Hskip|]].
  - rewrite Hcalls. vm_compute. reflexivity.
  - rewrite Hlength. vm_compute. reflexivity.
Defined.

(** C10 as it is stated fails. The limit is 0 and the stack holds the
    frame without a subroutine of the top level and three calls: the
    backtrace has the notes of the three calls, not of all four frames. *)
Lemma addDiag_backtrace_unlimited_counterexample :
  let recorded :=
    addDiag (ext := sample_externals) (OtherCode 1) (AtLocation 5%N)
      sample_unlimited_ctx in
  maxConstexprBacktrace (options sample_unlimited_ctx) = 0%N
  ∧ length (stack sample_unlimited_ctx) = 4%nat
  ∧ is_Some recorded
  ∧ recorded_notes recorded
    = [shl (newDiagnostic NoteInCallTo (AtLocation 102%N)) (ArgText "f(1)");
       shl (newDiagnostic NoteInCallTo (AtLocation 101%N)) (ArgText "f(2)");
       shl (newDiagnostic NoteInCallTo (AtLocation 100%N)) (ArgText "f(3)")]
  ∧ length (recorded_notes recorded) ≠ length (stack sample_unlimited_ctx).
Proof.
  vm_compute. split_and!; try done. by eexists.
Qed.

Lemma addDiags_backtrace_first_only_witness :
  stack_bound sample_shallow_ctx
  ∧ ∃ ns s',
      addDiags (ext := sample_externals)
        [newDiagnostic (OtherCode 1) (AtLocation 5%N);
         newDiagnostic (OtherCode 2) (AtLocation 6%N)] sample_shallow_ctx
      = Some (tt, s')
      ∧ diags s'
        = [add_notes (newDiagnostic (OtherCode 1) (AtLocation 5%N)) ns;
           newDiagnostic (OtherCode 2) (AtLocation 6%N)]
      ∧ length ns = 1%nat.
Proof.
  split; [exact sample_shallow_ctx_bound|].
  destruct (addDiags_backtrace_first_only (ext := sample_externals)
              sample_shallow_ctx
              (newDiagnostic (OtherCode 1) (AtLocation 5%N))
              [newDiagnostic (OtherCode 2) (AtLocation 6%N)]
              sample_shallow_ctx_bound)
    as (ns & s' & Hns & Hadd & _ & Hdiags & _).
  exists ns, s'. split; [exact Hadd|]. split; [exact Hdiags|].
  specialize (Hns (newDiagnostic (OtherCode 1) (AtLocation 5%N))).
  vm_compute in Hns. injection Hns as <-. reflexivity.
Defined.

Lemma sample_queue_ctx_bound q : stack_bound (sample_queue_ctx q).
Proof. repeat constructor. Qed.

Lemma QueueInsert_eval_spec_witness :
  let q := [sample_int 1; sample_int 2; sample_int 3] in
  let q' := [sample_int 1; sample_int 9; sample_int 2; sample_int 3] in
  stack_bound (sample_queue_ctx q)
  ∧ (∃ s',
       QueueInsertMethod_eval (ext := sample_externals)
         [sample_queue; sample_literal 1; sample_literal 9]
         (sample_queue_ctx q)
       = Some (CVUnset, s')
       ∧ heap s' !! 20%positive = Some (CVQueue q'))
  ∧ ∃ diag,
      QueueInsertMethod_eval (ext := sample_externals)
        [sample_queue; sample_literal 10; sample_literal 9]
        (sample_queue_ctx q')
      = Some (CVUnset, set_diags [diag] (sample_queue_ctx q'))
      ∧ code diag = ConstEvalDynamicArrayIndex
      ∧ heap (set_diags [diag] (sample_queue_ctx q')) !! 20%positive
        = Some (CVQueue q').
Proof.
  intros q q'. split; [apply sample_queue_ctx_bound|]. split.
  - destruct (QueueInsert_eval_spec (ext := sample_externals)
                sample_queue (sample_literal 1) (sample_literal 9)
                (sample_queue_ctx q) sample_lvalue (sample_queue_ctx q)
                (sample_int 1) (SVInt_of 32 1 true) (sample_queue_ctx q)
                (sample_int 9) (sample_queue_ctx q) 20%positive q)
      as [Hin _];
      [reflexivity..|apply sample_queue_ctx_bound|].
    destruct (Hin 1%nat) as (s' & Hrun & _ & Hread & _);
      [reflexivity|simpl; lia|].
    exists s'. split; [exact Hrun|exact Hread].
  - destruct (QueueInsert_eval_spec (ext := sample_externals)
                sample_queue (sample_literal 10) (sample_literal 9)
                (sample_queue_ctx q') sample_lvalue (sample_queue_ctx q')
                (sample_int 10) (SVInt_of 32 10 true) (sample_queue_ctx q')
                (sample_int 9) (sample_queue_ctx q') 20%positive q')
      as [_ Hout];
      [reflexivity..|apply sample_queue_ctx_bound|].
    destruct Hout as (diag & Hrun & Hcode & _ & Hheap).
    { right. exists 10%Z. split; [reflexivity|]. right. simpl. lia. }
    exists diag. split; [exact Hrun|]. split; [exact Hcode|exact Hheap].
Defined.


Lemma push_back_then_pop_back_witness :
  let q := [sample_int 1; sample_int 2; sample_int 3] in
  let pushed := store 20 (CVQueue (q ++ [sample_int 9])) (sample_queue_ctx q) in
  heap (sample_queue_ctx q) !! 20%positive = Some (CVQueue q)
  ∧ QueuePushMethod_eval false
      [sample_queue; sample_literal 9] (sample_queue_ctx q)
    = Some (CVUnset, pushed)
  ∧ ∃ s5,
      QueuePopMethod_eval (ext := sample_externals) false [sample_queue] pushed
      = Some (sample_int 9, s5)
      ∧ heap s5 !! 20%positive = Some (CVQueue q).
Proof.
  intros q pushed. split; [reflexivity|].
  destruct (push_back_then_pop_back (ext := sample_externals)
              sample_queue (sample_literal 9) (sample_queue_ctx q)
              sample_lvalue (sample_queue_ctx q) (sample_int 9)
              (sample_queue_ctx q) 20%positive q sample_lvalue pushed)
    as (Hpush & s5 & Hpop & Hq & _);
    [reflexivity..|].
  split; [exact Hpush|]. exists s5. split; [exact Hpop|exact Hq].
Defined.

Lemma sample_order :
  strict_total_on sample_less [sample_int 3; sample_int 1; sample_int 2].
Proof.
  unfold strict_total_on. split_and!; intros;
    repeat match goal with
           | Hin : _ ∈ _ :: _ |- _ => apply elem_of_cons in Hin as [->|Hin]
           | Hin : _ ∈ [] |- _ => by apply elem_of_nil in Hin
           end; vm_compute in *; congruence.
Qed.

Example sort_sample :
  let q := [sample_int 3; sample_int 1; sample_int 2] in
  ArraySortMethod_eval (ext := sample_externals) false [sample_queue]
    sample_no_with (sample_queue_ctx q)
  = Some (CVUnset,
          store 20 (CVQueue [sample_int 1; sample_int 2; sample_int 3])
            (sample_queue_ctx q))
  ∧ ArraySortMethod_eval (ext := sample_externals) true [sample_queue]
      sample_no_with (sample_queue_ctx q)
    = Some (CVUnset,
            store 20 (CVQueue [sample_int 3; sample_int 2; sample_int 1])
              (sample_queue_ctx q)).
Proof. split; reflexivity. Qed.

Lemma sort_is_reverse_of_rsort_witness :
  let q := [sample_int 3; sample_int 1; sample_int 2] in
  strict_total_on sample_less q
  ∧ ∃ sorted rsorted s' s'',
      ArraySortMethod_eval (ext := sample_externals) false [sample_queue]
        sample_no_with (sample_queue_ctx q)
      = Some (CVUnset, s')
      ∧ ArraySortMethod_eval (ext := sample_externals) true [sample_queue]
          sample_no_with (sample_queue_ctx q)
        = Some (CVUnset, s'')
      ∧ heap s' !! 20%positive = Some (CVQueue sorted)
      ∧ heap s'' !! 20%positive = Some (CVQueue rsorted)
      ∧ sorted = reverse rsorted.
Proof.
  intros q. split; [exact sample_order|].
  destruct (sort_is_reverse_of_rsort (ext := sample_externals) sample_queue
              sample_no_with (sample_queue_ctx q) sample_lvalue
              (sample_queue_ctx q) 20%positive q)
    as (sorted & rsorted & Hsort & Hrsort & Hrev & _ & _ & _ & _ & Hread);
    [reflexivity..|exact sample_order|].
  destruct (Hread false _ Hsort) as (Hsorted & _).
  destruct (Hread true _ Hrsort) as (Hrsorted & _).
  eexists sorted, rsorted, _, _.
  split; [exact Hsort|]. split; [exact Hrsort|].
  split; [exact Hsorted|]. split; [exact Hrsorted|exact Hrev].
Defined.

Lemma sample_sum_registered :
  (QueueType, ArrayReductionMethod "sum" (sv_add (Externals := sample_externals)))
  ∈ registerArrayMethods (ext := sample_externals).
Proof. apply list_elem_of_In. vm_compute. tauto. Qed.

Lemma reduction_of_empty_is_zero_witness :
  cv_size (CVQueue []) = 0%nat
  ∧ SystemMethod_eval (ext := sample_externals)
      (ArrayReductionMethod "sum" (sv_add (Externals := sample_externals)))
      [sample_byte_queue] sample_no_with (sample_queue_ctx [])
    = Some (CVInteger (SVInt_of 8 0 false), sample_queue_ctx []).
Proof.
  split; [reflexivity|].
  destruct (reduction_of_empty_is_zero (ext := sample_externals) QueueType
              "sum" sv_add sample_byte_queue [] sample_no_with
              (sample_queue_ctx []) (CVQueue []) (sample_queue_ctx [])
              sample_sum_registered eq_refl eq_refl eq_refl)
    as [Hplain _].
  exact (Hplain eq_refl sample_byte_type eq_refl).
Defined.

(** C1 as it is stated fails for [and] and for [product]: on an empty
    queue of unsigned bytes both return 0, which is neither all-ones (255)
    nor 1. *)
Lemma reduction_of_empty_counterexample :
  let run op :=
    SystemMethod_eval (ext := sample_externals) op [sample_byte_queue]
      sample_no_with (sample_queue_ctx []) in
  let and_ := ArrayReductionMethod "and"
                (sv_and (Externals := sample_externals)) in
  let product := ArrayReductionMethod "product"
                   (sv_mul (Externals := sample_externals)) in
  (QueueType, and_) ∈ registerArrayMethods (ext := sample_externals)
  ∧ (QueueType, product) ∈ registerArrayMethods (ext := sample_externals)
  ∧ cv_size (CVQueue []) = 0%nat
  ∧ run and_ = Some (CVInteger (SVInt_of 8 0 false), sample_queue_ctx [])
  ∧ run and_
    ≠ Some (CVInteger (SVInt_of 8 (2 ^ 8 - 1) false), sample_queue_ctx [])
  ∧ run product
    = Some (CVInteger (SVInt_of 8 0 false), sample_queue_ctx [])
  ∧ run product
    ≠ Some (CVInteger (SVInt_of 8 1 false), sample_queue_ctx []).
Proof.
  intros run and_ product. split_and!.
  - apply list_elem_of_In. vm_compute. tauto.
  - apply list_elem_of_In. vm_compute. tauto.
  - reflexivity.
  - reflexivity.
  - intros Heq. vm_compute in Heq. discriminate.
  - reflexivity.
  - intros Heq. vm_compute in Heq. discriminate.
Qed.

(** * Further properties *)

Section LocalsFacts.
Context {ext : Externals}.

Lemma last_insert_back {A} (l : list A) (x : A) :
  l ≠ [] → last (<[pred (length l) := x]> l) = Some x.
Proof.
  intros Hne. rewrite last_lookup, length_insert.
  apply list_lookup_insert_eq. destruct l; [done|simpl; lia].
Qed.

Lemma findLocal_local_of symbol s :
  findLocal symbol s = Some (local_of symbol s, s).
Proof. unfold findLocal, local_of, back. by destruct (last (stack s)). Qed.

Lemma createLocal_run symbol value s frame :
  last (stack s) = Some frame →
  local_fits symbol value = true →
  createLocal symbol value s
  = match temporaries frame !! sym_addr symbol with
    | Some l => Some (l, store l (stored_value symbol value) s)
    | None =>
      let l := fresh (dom (heap s)) in
      Some (l, store l (stored_value symbol value)
                 (store l CVUnset
                    (set_back (set_temporaries
                       (<[sym_addr symbol := l]> (temporaries frame)) frame)
                       s)))
    end.
Proof.
  intros Hlast Hfits.
  assert (stack s ≠ []) as Hne by (intros Hnil; by rewrite Hnil in Hlast).
  unfold createLocal, stack_empty, temporaries_at, back, stored_value.
  unfold bind at 1. rewrite bool_decide_eq_false_2 by done. simpl.
  unfold bind at 1. simpl. unfold bind at 1. rewrite Hlast.
  unfold local_fits in Hfits.
  destruct (temporaries frame !! sym_addr symbol) as [l|];
    destruct value; simpl; try done; unfold bind at 1; simpl;
    rewrite Hfits; done.
Qed.

(** X1. A local made by [createLocal] is found by [findLocal]: in a context
    with a frame, and with an integer value of the width of the symbol's
    type, [createLocal] returns the location that [findLocal] then gives
    for the symbol; the location holds the value (the default of the type
    when no value was given). The other locals of the frame, the values at
    all other locations, the depth of the stack and the diagnostics are
    as before. *)
Theorem createLocal_then_findLocal symbol value s :
  stack s ≠ [] →
  local_fits symbol value = true →
  ∃ l s',
    createLocal symbol value s = Some (l, s')
    ∧ findLocal symbol s' = Some (Some l, s')
    ∧ heap s' !! l = Some (stored_value symbol value)
    ∧ (∀ other, sym_addr other ≠ sym_addr symbol →
         findLocal other s' = Some (local_of other s, s'))
    ∧ (∀ l', l' ≠ l → heap s' !! l' = heap s !! l')
    ∧ length (stack s') = length (stack s)
    ∧ diags s' = diags s ∧ steps s' = steps s.
Proof.
  intros Hne Hfits.
  destruct (last (stack s)) as [frame|] eqn:Hlast.
  2: { apply last_None in Hlast. done. }
  rewrite (createLocal_run symbol value s frame Hlast Hfits).
  destruct (temporaries frame !! sym_addr symbol) as [l|] eqn:Hl.
  - eexists _, _. split; [done|]. rewrite !findLocal_local_of.
    unfold local_of. simpl. rewrite Hlast, Hl.
    split_and!; try done.
    + by rewrite lookup_insert_eq.
    + intros other _. rewrite findLocal_local_of.
      unfold local_of. simpl. by rewrite Hlast.
    + intros l' Hl'. by rewrite lookup_insert_ne.
  - eexists _, _. split; [done|]. rewrite !findLocal_local_of.
    unfold local_of. simpl. rewrite (last_insert_back _ _ Hne). simpl.
    rewrite lookup_insert_eq. split_and!; try done.
    + by rewrite lookup_insert_eq.
    + intros other Hother. rewrite findLocal_local_of.
      unfold local_of. simpl. rewrite (last_insert_back _ _ Hne). simpl.
      rewrite Hlast. by rewrite lookup_insert_ne.
    + intros l' Hl'. by rewrite !lookup_insert_ne.
    + by rewrite length_insert.
Qed.

End LocalsFacts.

Section LocalsFacts2.
Context {ext : Externals}.

Lemma createLocal_Some_inv symbol value s l s' :
  createLocal symbol value s = Some (l, s') →
  stack s ≠ [] ∧ local_fits symbol value = true.
Proof.
  unfold createLocal, stack_empty, temporaries_at, back, local_fits.
  unfold bind at 1. simpl.
  destruct (decide (stack s = [])) as [Hnil|Hne].
  { rewrite bool_decide_eq_true_2 by done. done. }
  rewrite bool_decide_eq_false_2 by done. simpl. intros Hrun.
  split; [done|].
  unfold bind at 1 in Hrun. simpl in Hrun. unfold bind at 1 in Hrun.
  destruct (last (stack s)) as [frame|]; [|done].
  destruct (temporaries frame !! sym_addr symbol);
    destruct value; try done; simpl in Hrun; unfold bind at 1 in Hrun;
    simpl in Hrun;
    by destruct (sv_bitWidth i =? getBitWidth (getType symbol))%N.
Qed.

Lemma createLocal_Some symbol value s :
  stack s ≠ [] → local_fits symbol value = true →
  is_Some (createLocal symbol value s).
Proof.
  intros Hne Hfits.
  destruct (last (stack s)) as [frame|] eqn:Hlast.
  2: { apply last_None in Hlast. done. }
  rewrite (createLocal_run symbol value s frame Hlast Hfits).
  by destruct (temporaries frame !! sym_addr symbol).
Qed.

(** X2. [createLocal] ends abnormally in two cases only, those of its two
    ASSERTs: when there is no frame, and when an integer value is given
    whose bit width is not that of the type of the symbol. *)
Theorem createLocal_aborts_iff symbol value s :
  createLocal symbol value s = None
  ↔ stack s = [] ∨ local_fits symbol value = false.
Proof.
  split.
  - intros Hnone.
    destruct (decide (stack s = [])) as [Hnil|Hne]; [by left|right].
    destruct (local_fits symbol value) eqn:Hfits; [|done].
    destruct (createLocal_Some symbol value s Hne Hfits) as [r Hr].
    congruence.
  - intros Hcase.
    destruct (createLocal symbol value s) as [[l s']|] eqn:Hrun; [|done].
    apply createLocal_Some_inv in Hrun as [Hne Hfits].
    destruct Hcase; congruence.
Qed.

(** X3. The location of a local is stable: creating the local of the same
    symbol again returns the location that the first [createLocal] returned
    and overwrites the value there: read after the call, the location holds
    the new value (the default of the type when no value is given), the
    other locations hold what they held, and the frames are untouched. *)
Theorem createLocal_again_same_location symbol v1 v2 s l s1 :
  createLocal symbol v1 s = Some (l, s1) →
  local_fits symbol v2 = true →
  ∃ s2,
    createLocal symbol v2 s1 = Some (l, s2)
    ∧ s2 = store l (stored_value symbol v2) s1
    ∧ heap s2 !! l = Some (stored_value symbol v2)
    ∧ (∀ l', l' ≠ l → heap s2 !! l' = heap s1 !! l')
    ∧ stack s2 = stack s1.
Proof.
  intros Hfirst Hfits2. exists (store l (stored_value symbol v2) s1).
  destruct (store_read_back l (stored_value symbol v2) s1)
    as (? & ? & _ & ?).
  split; [|done].
  pose proof Hfirst as Hinv.
  apply createLocal_Some_inv in Hinv as [Hne Hfits1].
  destruct (last (stack s)) as [frame|] eqn:Hlast.
  2: { apply last_None in Hlast. done. }
  rewrite (createLocal_run symbol v1 s frame Hlast Hfits1) in Hfirst.
  destruct (temporaries frame !! sym_addr symbol) as [l0|] eqn:Hl;
    simpl in Hfirst; injection Hfirst as <- <-.
  - rewrite (createLocal_run symbol v2 _ frame) by done.
    by rewrite Hl.
  - erewrite createLocal_run;
      [|simpl; by apply last_insert_back|done].
    simpl. by rewrite lookup_insert_eq.
Qed.

(** X4. After [deleteLocal] the symbol has no local in the top frame, while
    the other locals of the frame are found as before; the depth of the
    stack, the diagnostics and the step counter are the same. Without a
    frame, or for a symbol that has no local, nothing changes at all. *)
Theorem deleteLocal_then_findLocal symbol s :
  ∃ s',
    deleteLocal symbol s = Some (tt, s')
    ∧ findLocal symbol s' = Some (None, s')
    ∧ (∀ other, sym_addr other ≠ sym_addr symbol →
         findLocal other s' = Some (local_of other s, s'))
    ∧ length (stack s') = length (stack s)
    ∧ diags s' = diags s ∧ steps s' = steps s
    ∧ (local_of symbol s = None → s' = s).
Proof.
  unfold deleteLocal, back, local_of.
  destruct (last (stack s)) as [frame|] eqn:Hlast.
  - assert (stack s ≠ []) as Hne by (intros Hnil; by rewrite Hnil in Hlast).
    destruct (temporaries frame !! sym_addr symbol) as [l|] eqn:Hl.
    + eexists. split; [done|]. rewrite findLocal_local_of.
      unfold local_of. simpl. rewrite (last_insert_back _ _ Hne). simpl.
      rewrite lookup_delete_eq. split_and!; try done.
      * intros other Hother. rewrite findLocal_local_of.
        unfold local_of. simpl. rewrite (last_insert_back _ _ Hne). simpl.
        by rewrite lookup_delete_ne.
      * by rewrite length_insert.
    + exists s. split; [done|]. rewrite findLocal_local_of.
      unfold local_of. rewrite Hlast, Hl. split_and!; try done.
      intros other _. rewrite findLocal_local_of.
      unfold local_of. by rewrite Hlast.
  - exists s. split; [done|]. rewrite findLocal_local_of.
    unfold local_of. rewrite Hlast. split_and!; try done.
    intros other _. rewrite findLocal_local_of.
    unfold local_of. by rewrite Hlast.
Qed.

End LocalsFacts2.

Section FrameFacts.
Context {ext : Externals}.

Lemma set_stack_same s : set_stack (stack s) s = s.
Proof. by destruct s. Qed.

Lemma popFrame_snoc frames frame s :
  stack s = frames ++ [frame] →
  popFrame s = Some (tt, set_stack frames s).
Proof.
  intros Hs. unfold popFrame. rewrite Hs, removelast_last.
  by destruct frames.
Qed.

(** X5. Frames are pushed and popped in a stack discipline, and locals
    live in their frame. [popFrame] after [pushEmptyFrame], or after a
    [pushFrame] that found room, gives back the context as it was. A new
    frame has no locals, whatever the frames below hold. A local created in
    a frame is gone when the frame is popped: the frames are then those of
    before, and so is what [findLocal] gives for any symbol. *)
Theorem frames_push_pop s :
  (let* _ := pushEmptyFrame in popFrame) s = Some (tt, s)
  ∧ (∀ sub callLoc lookupLoc,
       (N.of_nat (length (stack s)) < maxConstexprDepth (options s))%N →
       (let* _ := pushFrame sub callLoc lookupLoc in popFrame) s
       = Some (tt, s))
  ∧ (∀ symbol,
       (let* _ := pushEmptyFrame in findLocal symbol) s
       = Some (None, set_stack (stack s ++ [emptyFrame]) s))
  ∧ (∀ symbol value, local_fits symbol value = true →
       ∃ s',
         (let* _ := pushEmptyFrame in
          let* _ := createLocal symbol value in
          popFrame) s = Some (tt, s')
         ∧ stack s' = stack s
         ∧ diags s' = diags s
         ∧ ∀ other, findLocal other s' = Some (local_of other s, s')).
Proof.
  split_and!.
  - unfold bind, pushEmptyFrame, modify.
    erewrite popFrame_snoc by reflexivity. simpl. by destruct s.
  - intros sub callLoc lookupLoc Hroom. unfold bind, pushFrame.
    assert ((maxConstexprDepth (options s)
             <=? N.of_nat (length (stack s)))%N = false) as ->
      by by apply N.leb_gt.
    erewrite popFrame_snoc by reflexivity. simpl. by destruct s.
  - intros symbol. unfold bind, pushEmptyFrame, modify.
    rewrite findLocal_local_of. unfold local_of. simpl.
    by rewrite last_snoc.
  - intros symbol value Hfits. unfold bind at 1, pushEmptyFrame, modify.
    set (s1 := set_stack (stack s ++ [emptyFrame]) s).
    assert (last (stack s1) = Some emptyFrame) as Hlast
      by (simpl; apply last_snoc).
    unfold bind at 1.
    rewrite (createLocal_run symbol value s1 emptyFrame Hlast Hfits).
    assert (temporaries emptyFrame !! sym_addr symbol = None) as ->
      by apply lookup_empty.
    simpl. erewrite (popFrame_snoc (stack s)).
    2: { unfold s1. simpl. rewrite length_app. simpl.
         replace (pred (length (stack s) + 1))
           with (length (stack s) + 0)%nat by lia.
         rewrite insert_app_r. reflexivity. }
    eexists. split; [done|]. simpl. split_and!; try done.
    intros other. by rewrite findLocal_local_of.
Qed.

(** X6. [pushFrame] keeps the stack within the call depth: from a stack of
    at most [maxConstexprDepth] frames it leaves a stack of at most that
    many, whether it succeeds or not, and it changes the depth by one
    exactly when it returns true. *)
Theorem pushFrame_keeps_depth sub callLoc lookupLoc s ok s' :
  pushFrame sub callLoc lookupLoc s = Some (ok, s') →
  (N.of_nat (length (stack s)) ≤ maxConstexprDepth (options s))%N →
  (N.of_nat (length (stack s')) ≤ maxConstexprDepth (options s'))%N
  ∧ options s' = options s
  ∧ length (stack s')
    = (if ok then S (length (stack s)) else length (stack s)).
Proof.
  unfold pushFrame. intros Hrun Hdepth.
  destruct (maxConstexprDepth (options s) <=? N.of_nat (length (stack s)))%N
    eqn:Hfull.
  - unfold bind, addDiag, addDiagArg, ret in Hrun.
    destruct (reportStack s _) as [diag|]; [|done]. simpl in Hrun.
    rewrite last_snoc in Hrun. by simplify_eq.
  - apply N.leb_gt in Hfull. simplify_eq. simpl.
    rewrite length_app. simpl. split_and!; [lia|done|lia].
Qed.

(** X7. The stack of lvalues is last-in first-out: [getTopLValue] gives
    the lvalue pushed last, [popLValue] after [pushLValue] gives back the
    context as it was, and on an empty stack [getTopLValue] gives nothing. *)
Theorem lvalue_stack_lifo lval s :
  (let* _ := pushLValue lval in getTopLValue) s
  = Some (Some lval, set_lvalStack (lvalStack s ++ [lval]) s)
  ∧ (let* _ := pushLValue lval in popLValue) s = Some (tt, s)
  ∧ (lvalStack s = [] → getTopLValue s = Some (None, s)).
Proof.
  split_and!.
  - unfold bind, pushLValue, modify, getTopLValue. simpl.
    by rewrite last_snoc.
  - unfold bind, pushLValue, modify, popLValue. simpl.
    rewrite removelast_last. destruct (lvalStack s ++ [lval]) eqn:Happ.
    + by destruct (lvalStack s).
    + by destruct s.
  - intros Hnil. unfold getTopLValue. by rewrite Hnil.
Qed.

End FrameFacts.

Section BudgetFacts.
Context {ext : Externals}.

Lemma set_steps_same s : set_steps (steps s) s = s.
Proof. by destruct s. Qed.

Lemma set_diags_same s : set_diags (diags s) s = s.
Proof. by destruct s. Qed.

Lemma step_within l s :
  (steps s + 1 < maxConstexprSteps (options s))%N →
  (maxConstexprSteps (options s) < 2 ^ steps_bits)%N →
  step l s = Some (true, set_steps (steps s + 1) s).
Proof.
  intros Hlt Hrep. unfold step.
  assert ((steps s + 1) mod 2 ^ steps_bits = steps s + 1)%N as ->.
  { apply N.mod_small. revert Hlt Hrep.
    generalize (2 ^ steps_bits)%N. intros; lia. }
  simpl. by rewrite (proj2 (N.ltb_lt _ _) Hlt).
Qed.

Lemma steps_loop_within l n : ∀ s,
  (steps s + N.of_nat n < maxConstexprSteps (options s))%N →
  (maxConstexprSteps (options s) < 2 ^ steps_bits)%N →
  steps_loop n l s = Some (true, set_steps (steps s + N.of_nat n) s).
Proof.
  induction n as [|n IH]; intros s Hlt Hrep.
  - simpl. rewrite N.add_0_r, set_steps_same. done.
  - simpl. unfold bind. rewrite step_within by (done || lia).
    rewrite IH by (simpl; done || lia). simpl.
    do 2 f_equal. unfold set_steps. simpl. f_equal. lia.
Qed.

Lemma steps_loop_stops l n : ∀ s,
  stack_bound s →
  (maxConstexprSteps (options s) < 2 ^ steps_bits)%N →
  (steps s < maxConstexprSteps (options s))%N →
  (maxConstexprSteps (options s) ≤ steps s + N.of_nat n)%N →
  ∃ diag,
    steps_loop n l s
    = Some (false, set_diags (diags s ++ [diag])
                     (set_steps (maxConstexprSteps (options s)) s))
    ∧ code diag = ConstEvalExceededMaxSteps
    ∧ location diag = AtLocation l.
Proof.
  induction n as [|n IH]; intros s Hb Hrep Hstart Hn; [lia|].
  simpl. unfold bind.
  assert ((steps s + 1) mod 2 ^ steps_bits = steps s + 1)%N as Hmod.
  { apply N.mod_small. revert Hstart Hrep.
    generalize (2 ^ steps_bits)%N. intros; lia. }
  destruct (step_cases s l Hb) as [[Hlt ->]|[Hge (diag & -> & Hc & Hl)]];
    rewrite Hmod in *.
  - destruct (IH (set_steps (steps s + 1) s)) as (diag & -> & Hc & Hl);
      simpl; try done; try lia.
    by exists diag.
  - assert (steps s + 1 = maxConstexprSteps (options s))%N as -> by lia.
    by exists diag.
Qed.

(** X8. The step budget is exact. From a zero counter, with a limit of at
    least 1 that the counter can hold, a run of fewer than
    [maxConstexprSteps] steps succeeds and records nothing; a longer run is
    stopped by the call that brings the counter to the limit, with exactly
    one [ConstEvalExceededMaxSteps], and the counter stays at the limit. *)
Theorem steps_budget_exact l n s :
  stack_bound s →
  steps s = 0%N →
  (1 ≤ maxConstexprSteps (options s) < 2 ^ steps_bits)%N →
  ((N.of_nat n < maxConstexprSteps (options s))%N →
   steps_loop n l s = Some (true, set_steps (N.of_nat n) s))
  ∧ ((maxConstexprSteps (options s) ≤ N.of_nat n)%N →
     ∃ diag,
       steps_loop n l s
       = Some (false, set_diags (diags s ++ [diag])
                        (set_steps (maxConstexprSteps (options s)) s))
       ∧ code diag = ConstEvalExceededMaxSteps
       ∧ location diag = AtLocation l).
Proof.
  intros Hb Hzero [Hpos Hrep]. split; intros Hn.
  - rewrite steps_loop_within by (rewrite ?Hzero; done).
    by rewrite Hzero.
  - apply steps_loop_stops; rewrite ?Hzero; try done; lia.
Qed.

(** X9. [reset] makes the context fresh again, whatever it held: no
    frames, no lvalues, no diagnostics, a zero step counter, the same
    options. A second [reset] changes nothing. In the reset context a
    diagnostic gets no backtrace, and the whole step budget is available
    again, also after a run that had exceeded it. *)
Theorem reset_makes_fresh s :
  ∃ s0,
    reset s = Some (tt, s0)
    ∧ steps s0 = 0%N ∧ stack s0 = [] ∧ lvalStack s0 = [] ∧ diags s0 = []
    ∧ options s0 = options s
    ∧ reset s0 = Some (tt, s0)
    ∧ (∀ c w, addDiag c w s0 = Some (tt, set_diags [newDiagnostic c w] s0))
    ∧ (∀ l n,
         (N.of_nat n < maxConstexprSteps (options s) < 2 ^ steps_bits)%N →
         steps_loop n l s0 = Some (true, set_steps (N.of_nat n) s0)).
Proof.
  eexists. split; [reflexivity|]. simpl. split_and!; try done.
  - intros c w. unfold addDiag, reportStack. simpl.
    by destruct (maxConstexprBacktrace (options s)).
  - intros l n [Hn Hrep].
    rewrite steps_loop_within by (simpl; done). done.
Qed.

(** *** Recording only appends *)

Lemma addDiags_from_false_appends rest : ∀ s r s',
  addDiags_from false rest s = Some (r, s') →
  s' = set_diags (diags s ++ rest) s.
Proof.
  intros s r s'. rewrite addDiags_from_rest. by intros [= _ <-].
Qed.

(** X10. Recording never loses or alters what is recorded, and never
    touches the frames or the values. [reportStack] keeps the code, the
    location and the arguments of a diagnostic and the notes that it has,
    and appends notes. [addDiag] appends one diagnostic with the given code
    and location and changes nothing else. [addDiags] appends as many
    diagnostics as the batch has, with their codes, locations and
    arguments and in their order. [step] and [pushFrame] keep the recorded
    diagnostics as a prefix. *)
Theorem recording_only_appends s :
  (∀ diag diag', reportStack s diag = Some diag' →
     code diag' = code diag ∧ location diag' = location diag
     ∧ args diag' = args diag ∧ ∃ ns, notes diag' = notes diag ++ ns)
  ∧ (∀ c w r s', addDiag c w s = Some (r, s') →
       ∃ diag, s' = set_diags (diags s ++ [diag]) s
               ∧ code diag = c ∧ location diag = w ∧ args diag = [])
  ∧ (∀ batch r s', addDiags batch s = Some (r, s') →
       ∃ batch', s' = set_diags (diags s ++ batch') s
                 ∧ code <$> batch' = code <$> batch
                 ∧ location <$> batch' = location <$> batch
                 ∧ args <$> batch' = args <$> batch)
  ∧ (∀ l ok s', step l s = Some (ok, s') →
       ∃ more, diags s' = diags s ++ more
               ∧ stack s' = stack s ∧ heap s' = heap s)
  ∧ (∀ sub callLoc lookupLoc ok s',
       pushFrame sub callLoc lookupLoc s = Some (ok, s') →
       ∃ more, diags s' = diags s ++ more
               ∧ heap s' = heap s ∧ steps s' = steps s).
Proof.
  split_and!.
  - intros diag diag'. apply reportStack_keeps.
  - intros c w r s'. unfold addDiag.
    destruct (reportStack s (newDiagnostic c w)) as [diag|] eqn:Hr; [|done].
    intros [= _ <-]. exists diag.
    apply reportStack_keeps in Hr as (Hc & Hl & Ha & _). done.
  - intros [|diag rest] r s'; unfold addDiags; simpl.
    + intros [= _ <-]. exists []. by rewrite app_nil_r, set_diags_same.
    + destruct (reportStack s diag) as [copy|] eqn:Hr; [|done].
      intros Hrest. apply addDiags_from_false_appends in Hrest as ->.
      apply reportStack_keeps in Hr as (Hc & Hl & Ha & _).
      exists (copy :: rest). simpl. rewrite <- app_assoc.
      split; [done|]. by rewrite Hc, Hl, Ha.
  - intros l ok s'. unfold step. simpl.
    destruct (_ <? _)%N.
    + intros [= _ <-]. exists []. by rewrite app_nil_r.
    + unfold bind, addDiag, ret.
      destruct (reportStack _ _) as [diag|]; [|done].
      intros [= _ <-]. by exists [diag].
  - intros sub callLoc lookupLoc ok s'. unfold pushFrame.
    destruct (_ <=? _)%N.
    + unfold bind, addDiag, addDiagArg, ret.
      destruct (reportStack _ _) as [diag|]; [|done]. simpl.
      rewrite last_snoc, removelast_last.
      intros [= _ <-]. by eexists [_].
    + intros [= _ <-]. exists []. by rewrite app_nil_r.
Qed.

End BudgetFacts.

Section BacktraceFacts.
Context {ext : Externals}.

Lemma frame_note_length hp frame : (length (frame_note hp frame) ≤ 1)%nat.
Proof.
  unfold frame_note. destruct (subroutine frame); [|simpl; lia].
  destruct (appendArguments _ _ _ _ _); simpl; lia.
Qed.

Lemma frame_notes_length hp frames :
  (length (flat_map (frame_note hp) frames) ≤ length frames)%nat.
Proof.
  induction frames as [|f fs IH]; simpl; [lia|].
  rewrite length_app. pose proof (frame_note_length hp f). lia.
Qed.

Lemma halves_sum (L : N) :
  (N.to_nat (L / 2) + N.to_nat ((L + 1) / 2))%nat = N.to_nat L.
Proof.
  rewrite <- half_up. pose proof (N.div_mod L 2 ltac:(done)) as Hdm.
  revert Hdm. generalize (L / 2)%N (L mod 2)%N. intros; lia.
Qed.

(** X11. The limit bounds the backtrace: with a nonzero limit L,
    [reportStack] appends at most L + 1 notes to a diagnostic (L for frames
    and one for the elision), however deep the stack is, and never more
    than one note per frame of the stack plus the elision note. *)
Theorem backtrace_is_bounded s diag :
  stack_bound s →
  maxConstexprBacktrace (options s) ≠ 0%N →
  ∃ ns,
    reportStack s diag = Some (add_notes diag ns)
    ∧ (length ns ≤ N.to_nat (maxConstexprBacktrace (options s)) + 1)%nat
    ∧ (length ns ≤ length (stack s) + 1)%nat.
Proof.
  intros Hb Hnz.
  destruct (decide (N.of_nat (length (stack s))
                    ≤ maxConstexprBacktrace (options s))%N) as [Hle|Hgt].
  - eexists. split; [apply reportStack_full; auto|].
    pose proof (frame_notes_length (heap s) (display_order s)) as Hlen.
    unfold display_order in *. rewrite length_reverse in Hlen. lia.
  - assert (maxConstexprBacktrace (options s)
            < N.of_nat (length (stack s)))%N as Hlt by lia.
    destruct (reportStack_elided s diag Hb Hnz Hlt) as (frame & _ & ->).
    eexists. split; [done|].
    rewrite length_app. simpl.
    pose proof (frame_notes_length (heap s)
      (take (N.to_nat (maxConstexprBacktrace (options s) / 2))
         (display_order s))) as Hfirst.
    pose proof (frame_notes_length (heap s)
      (last_n (N.to_nat ((maxConstexprBacktrace (options s) + 1) / 2))
         (display_order s))) as Hlast.
    unfold last_n in *. rewrite length_take in Hfirst.
    rewrite length_drop in Hlast.
    pose proof (halves_sum (maxConstexprBacktrace (options s))) as Hsum.
    unfold display_order in *. rewrite length_reverse in *.
    revert Hfirst Hlast Hsum.
    generalize (N.to_nat (maxConstexprBacktrace (options s) / 2)).
    generalize (N.to_nat ((maxConstexprBacktrace (options s) + 1) / 2)).
    intros b a Hfirst Hlast Hsum. lia.
Qed.

(** X12. The elision note counts what is left out. Over a nonzero limit L
    and a deeper stack, the display order splits into the first ⌊L/2⌋
    frames, the frames left out and the last ⌈L/2⌉ frames; [reportStack]
    reports the first and the last part, and between them one note that
    gives the number of frames left out, at the call site of the first of
    them. *)
Theorem backtrace_elides_the_middle s diag :
  stack_bound s →
  maxConstexprBacktrace (options s) ≠ 0%N →
  (maxConstexprBacktrace (options s) < N.of_nat (length (stack s)))%N →
  let L := maxConstexprBacktrace (options s) in
  ∃ first_half skipped last_half frame,
    display_order s = first_half ++ skipped ++ last_half
    ∧ length first_half = N.to_nat (L / 2)
    ∧ length last_half = N.to_nat ((L + 1) / 2)
    ∧ N.of_nat (length skipped) = (N.of_nat (length (stack s)) - L)%N
    ∧ head skipped = Some frame
    ∧ reportStack s diag
      = Some (add_notes diag
          (flat_map (frame_note (heap s)) first_half
           ++ elision_note frame (N.of_nat (length skipped))
           :: flat_map (frame_note (heap s)) last_half)).
Proof.
  intros Hb Hnz Hlt L.
  destruct (reportStack_elided s diag Hb Hnz Hlt) as (frame & Hframe & Hr).
  fold L in Hframe, Hr.
  pose proof (halves_sum L) as Hsum.
  assert (length (display_order s) = length (stack s)) as Hlen
    by apply length_reverse.
  set (a := N.to_nat (L / 2)) in *.
  set (b := N.to_nat ((L + 1) / 2)) in *.
  set (k := (length (display_order s) - b - a)%nat).
  exists (take a (display_order s)), (take k (drop a (display_order s))),
    (last_n b (display_order s)), frame.
  assert (a + b < length (display_order s))%nat as Hab by lia.
  split_and!.
  - unfold last_n.
    replace (length (display_order s) - b)%nat with (a + k)%nat
      by (unfold k; lia).
    rewrite <- drop_drop, !take_drop. done.
  - rewrite length_take. lia.
  - unfold last_n. rewrite length_drop. lia.
  - rewrite length_take, length_drop. unfold k. lia.
  - rewrite head_lookup, lookup_take_lt by (unfold k; lia).
    rewrite lookup_drop. by rewrite Nat.add_0_r.
  - rewrite Hr. do 5 f_equal.
    rewrite length_take, length_drop. unfold k. clearbody a b. lia.
Qed.

(** X13. An unabridged backtrace lists the calls, the most recent first:
    when the stack is within the limit, or the limit is 0, the notes that
    [reportStack] appends are [NoteInCallTo] notes without notes of their
    own, one for each frame that has a subroutine, located at the call
    sites of these frames from the top of the stack down. *)
Theorem backtrace_lists_calls_in_order s diag :
  stack_bound s →
  (N.of_nat (length (stack s)) ≤ maxConstexprBacktrace (options s))%N
  ∨ maxConstexprBacktrace (options s) = 0%N →
  ∃ ns,
    reportStack s diag = Some (add_notes diag ns)
    ∧ location <$> ns
      = (λ frame, AtLocation (callLocation frame))
        <$> filter (λ frame, has_subroutine frame = true)
              (reverse (stack s))
    ∧ Forall (λ note, code note = NoteInCallTo ∧ notes note = []) ns.
Proof.
  intros Hb Hcase. eexists. split; [by apply reportStack_full|].
  unfold display_order.
  assert (Forall (λ frame, frame_bound (heap s) frame = true)
            (reverse (stack s))) as Hd by by apply Forall_reverse.
  induction Hd as [|f fs Hf Hfs [IH1 IH2]]; [done|]. simpl.
  rewrite fmap_app, Forall_app, IH1.
  destruct (frame_note_cases (heap s) f Hf) as [[Hs ->]|[Hs [text ->]]].
  - rewrite filter_cons_False by congruence. done.
  - rewrite filter_cons_True by done. split; [done|].
    split; [|done]. by repeat constructor.
Qed.

End BacktraceFacts.

Section QueueFacts.
Context {ext : Externals}.

Ltac run_eval :=
  repeat (unfold bind at 1; simpl;
          repeat match goal with
                 | Hrun : ?m = _ |- context [?m] => rewrite Hrun
                 end; simpl).

Lemma delete_at_shifts {A} (n : nat) (q : list A) :
  (n < length q)%nat →
  let q' := take n q ++ drop (S n) q in
  S (length q') = length q
  ∧ (∀ j, (j < n)%nat → q' !! j = q !! j)
  ∧ (∀ j, (n ≤ j)%nat → q' !! j = q !! S j).
Proof.
  intros Hn q'. unfold q'. split_and!.
  - rewrite length_app, length_take, length_drop. lia.
  - intros j Hj. rewrite lookup_app_l by (rewrite length_take; lia).
    by rewrite lookup_take_lt.
  - intros j Hj. rewrite lookup_app_r by (rewrite length_take; lia).
    rewrite length_take, lookup_drop. f_equal. lia.
Qed.

Lemma QueueDelete_eval_clear a0 s lval s1 t q :
  evalLValue a0 s = Some (lval, s1) →
  lval_bool lval = true →
  resolve lval (heap s1) = Some t →
  heap s1 !! t = Some (CVQueue q) →
  QueueDeleteMethod_eval [a0] s = Some (CVUnset, store t (CVQueue []) s1).
Proof.
  intros Hlv Hvalid Hres Hq.
  unfold QueueDeleteMethod_eval, arg, resolve_in, target_queue, deref.
  run_eval. done.
Qed.

Lemma QueueDelete_eval_run a0 a1 s lval s1 q0 ci i s2 t q :
  evalLValue a0 s = Some (lval, s1) →
  lval_bool lval = true →
  resolve lval (heap s1) = Some t →
  heap s1 !! t = Some (CVQueue q0) →
  eval a1 s1 = Some (ci, s2) → ci = CVInteger i →
  heap s2 !! t = Some (CVQueue q) →
  QueueDeleteMethod_eval [a0; a1] s
  = (let index := as_int32 i in
     let bound := N.of_nat (length q) in
     if index_out_of_range index bound then
       let* _ := addDiag ConstEvalDynamicArrayIndex
                   (AtRange (sourceRange a1)) in
       let* _ := addDiagArg (ArgValue ci) in
       let* _ := addDiagArg (ArgType (expr_type a0)) in
       let* _ := addDiagArg (ArgNum bound) in
       ret CVUnset
     else
       let n := Z.to_nat (default 0%Z index) in
       let* _ := modify (store t (CVQueue (take n q ++ drop (S n) q))) in
       ret CVUnset) s2.
Proof.
  intros Hlv Hvalid Hres Hq0 Hci -> Hq.
  unfold QueueDeleteMethod_eval, arg, resolve_in, target_queue, deref.
  run_eval. done.
Qed.

(** X14. [delete] on a queue. Without an index it empties the queue. With
    an index [i], [0 ≤ i < n] for the [n] elements that the queue has once
    the index is evaluated, it removes the element at [i]: the elements
    before it keep their place and those after it move down by one. In
    both cases the queue read after the call is the new one, and the other
    locations and the diagnostics are as before. With any other index it
    appends one [ConstEvalDynamicArrayIndex] at the range of the index
    argument and changes nothing else: the queue read after the call is
    the one of before. *)
Theorem QueueDelete_eval_spec a0 a1 s lval s1 q0 ci i s2 t q :
  evalLValue a0 s = Some (lval, s1) →
  lval_bool lval = true →
  resolve lval (heap s1) = Some t →
  heap s1 !! t = Some (CVQueue q0) →
  eval a1 s1 = Some (ci, s2) → ci = CVInteger i →
  heap s2 !! t = Some (CVQueue q) →
  stack_bound s2 →
  (∃ s',
     QueueDeleteMethod_eval [a0] s = Some (CVUnset, s')
     ∧ s' = store t (CVQueue []) s1
     ∧ heap s' !! t = Some (CVQueue [])
     ∧ (∀ l, l ≠ t → heap s' !! l = heap s1 !! l)
     ∧ diags s' = diags s1)
  ∧ (∀ n : nat, as_int32 i = Some (Z.of_nat n) → (n < length q)%nat →
       let q' := take n q ++ drop (S n) q in
       ∃ s',
         QueueDeleteMethod_eval [a0; a1] s = Some (CVUnset, s')
         ∧ s' = store t (CVQueue q') s2
         ∧ heap s' !! t = Some (CVQueue q')
         ∧ (∀ l, l ≠ t → heap s' !! l = heap s2 !! l)
         ∧ diags s' = diags s2
         ∧ S (length q') = length q
         ∧ (∀ j, (j < n)%nat → q' !! j = q !! j)
         ∧ (∀ j, (n ≤ j)%nat → q' !! j = q !! S j))
  ∧ ((as_int32 i = None
      ∨ ∃ z, as_int32 i = Some z ∧ (z < 0 ∨ Z.of_nat (length q) ≤ z)%Z) →
     ∃ diag s',
       QueueDeleteMethod_eval [a0; a1] s = Some (CVUnset, s')
       ∧ s' = set_diags (diags s2 ++ [diag]) s2
       ∧ diags s' = diags s2 ++ [diag]
       ∧ heap s' = heap s2
       ∧ heap s' !! t = Some (CVQueue q)
       ∧ code diag = ConstEvalDynamicArrayIndex
       ∧ location diag = AtRange (sourceRange a1)).
Proof.
  intros Hlv Hvalid Hres Hq0 Hci Hint Hq Hb.
  split.
  { exists (store t (CVQueue []) s1).
    destruct (store_read_back t (CVQueue []) s1) as (? & ? & ? & _).
    split; [by eapply QueueDelete_eval_clear|done]. }
  rewrite (QueueDelete_eval_run a0 a1 s lval s1 q0 ci i s2 t q) by done.
  split.
  - intros n Hi Hn q'. exists (store t (CVQueue q') s2).
    destruct (store_read_back t (CVQueue q') s2) as (? & ? & ? & _).
    split; [|split_and!; try done; by apply delete_at_shifts].
    simpl. rewrite Hi. unfold index_out_of_range.
    assert ((Z.of_nat n <? 0)%Z
            || (N.of_nat (length q) <=? Z.to_N (Z.of_nat n))%N = false)
      as ->.
    { apply orb_false_iff. split; [apply Z.ltb_ge|apply N.leb_gt]; lia. }
    simpl. by rewrite Nat2Z.id.
  - intros Hout. simpl.
    assert (index_out_of_range (as_int32 i) (N.of_nat (length q)) = true)
      as ->.
    { unfold index_out_of_range.
      destruct Hout as [->|(z & -> & Hz)]; [done|].
      apply orb_true_iff.
      destruct Hz; [left; apply Z.ltb_lt|right; apply N.leb_le]; lia. }
    destruct (addDiag_spec ConstEvalDynamicArrayIndex
                (AtRange (sourceRange a1)) s2 Hb) as (ns & _ & Hd).
    unfold bind at 1. rewrite Hd.
    unfold bind at 1. erewrite addDiagArg_last by reflexivity.
    unfold bind at 1. erewrite addDiagArg_last by reflexivity.
    unfold bind at 1. erewrite addDiagArg_last by reflexivity.
    eexists _, _. split; [done|]. done.
Qed.

End QueueFacts.

Section QueueLaws.
Context {ext : Externals}.

Ltac run_eval :=
  repeat (unfold bind at 1; simpl;
          repeat match goal with
                 | Hrun : ?m = _ |- context [?m] => rewrite Hrun
                 end; simpl).

Lemma store_lookup t v s : heap (store t v s) !! t = Some v.
Proof. apply lookup_insert_eq. Qed.

Lemma store_store t v w s : store t w (store t v s) = store t w s.
Proof. unfold store, set_heap. simpl. by rewrite insert_insert_eq. Qed.

Lemma push_on_variable front a0 a1 t x q s :
  names_variable a0 t → constant_expr a1 x → cv_bool x = true →
  heap s !! t = Some (CVQueue q) →
  QueuePushMethod_eval front [a0; a1] s
  = Some (CVUnset, store t (CVQueue (if front then x :: q else q ++ [x])) s).
Proof.
  intros (_ & lval & Hvalid & Hlv & Hres) Hx Hset Hq.
  eapply QueuePush_eval_run; eauto.
Qed.

Lemma pop_on_variable front a0 t q s :
  names_variable a0 t → q ≠ [] →
  heap s !! t = Some (CVQueue q) →
  QueuePopMethod_eval front [a0] s
  = Some (default CVUnset (if front then head q else last q),
          store t (CVQueue (if front then tail q else removelast q)) s).
Proof.
  intros (_ & lval & Hvalid & Hlv & Hres) Hne Hq.
  erewrite QueuePop_eval_run; eauto.
  rewrite bool_decide_eq_false_2 by done.
  unfold bind, lift, modify, ret.
  destruct front; destruct q as [|y q'] using rev_ind; try done.
  - by destruct q'.
  - by rewrite last_snoc.
Qed.

Lemma insert_on_variable a0 a1 a2 t i n x q s :
  names_variable a0 t → constant_expr a1 (CVInteger i) → constant_expr a2 x →
  cv_bool x = true → as_int32 i = Some (Z.of_nat n) → (n ≤ length q)%nat →
  heap s !! t = Some (CVQueue q) →
  QueueInsertMethod_eval [a0; a1; a2] s
  = Some (CVUnset, store t (CVQueue (take n q ++ x :: drop n q)) s).
Proof.
  intros (_ & lval & Hvalid & Hlv & Hres) Hi Hx Hset Has Hn Hq.
  erewrite QueueInsert_eval_run; eauto. simpl. rewrite Has.
  unfold index_out_of_range.
  assert ((Z.of_nat n <? 0)%Z
          || (N.of_nat (length q) + 1 <=? Z.to_N (Z.of_nat n))%N = false)
    as ->.
  { apply orb_false_iff. split; [apply Z.ltb_ge|apply N.leb_gt]; lia. }
  simpl. by rewrite Nat2Z.id.
Qed.

Lemma delete_on_variable a0 a1 t i n q s :
  names_variable a0 t → constant_expr a1 (CVInteger i) →
  as_int32 i = Some (Z.of_nat n) → (n < length q)%nat →
  heap s !! t = Some (CVQueue q) →
  QueueDeleteMethod_eval [a0; a1] s
  = Some (CVUnset, store t (CVQueue (take n q ++ drop (S n) q)) s).
Proof.
  intros (_ & lval & Hvalid & Hlv & Hres) Hi Has Hn Hq.
  erewrite QueueDelete_eval_run; eauto. simpl. rewrite Has.
  unfold index_out_of_range.
  assert ((Z.of_nat n <? 0)%Z
          || (N.of_nat (length q) <=? Z.to_N (Z.of_nat n))%N = false)
    as ->.
  { apply orb_false_iff. split; [apply Z.ltb_ge|apply N.leb_gt]; lia. }
  simpl. by rewrite Nat2Z.id.
Qed.

(** X15. A queue is double-ended. On a queue variable holding [q]:
    [push_front(x)] then [pop_front()] returns [x] and leaves [q];
    [push_back(x)] then [pop_front()] returns the first element of [q]
    (or [x] when [q] is empty) and leaves the rest followed by [x]: first
    in, first out; [push_front(x)] then [pop_back()] returns the last
    element of [q] (or [x]) and leaves [x] followed by the rest. *)
Theorem queue_push_then_pop a0 a1 t x q s :
  names_variable a0 t → constant_expr a1 x → cv_bool x = true →
  heap s !! t = Some (CVQueue q) →
  (let* _ := QueuePushMethod_eval true [a0; a1] in
   QueuePopMethod_eval true [a0]) s
  = Some (x, store t (CVQueue q) s)
  ∧ (let* _ := QueuePushMethod_eval false [a0; a1] in
     QueuePopMethod_eval true [a0]) s
    = Some (default x (head q), store t (CVQueue (tail (q ++ [x]))) s)
  ∧ (let* _ := QueuePushMethod_eval true [a0; a1] in
     QueuePopMethod_eval false [a0]) s
    = Some (default x (last q),
            store t (CVQueue (removelast (x :: q))) s).
Proof.
  intros Hvar Hx Hset Hq. split_and!; unfold bind at 1.
  - rewrite (push_on_variable true a0 a1 t x q s) by done.
    erewrite (pop_on_variable true a0 t (x :: q));
      [|done|done|apply store_lookup].
    simpl. by rewrite store_store.
  - rewrite (push_on_variable false a0 a1 t x q s) by done.
    erewrite (pop_on_variable true a0 t (q ++ [x]));
      [|done|by destruct q|apply store_lookup].
    rewrite store_store. by destruct q.
  - rewrite (push_on_variable true a0 a1 t x q s) by done.
    erewrite (pop_on_variable false a0 t (x :: q));
      [|done|done|apply store_lookup].
    rewrite store_store.
    assert (default CVUnset (last (x :: q)) = default x (last q)) as ->;
      [|done].
    destruct q as [|y q' _] using rev_ind; [done|].
    by rewrite app_comm_cons, !last_snoc.
Qed.

(** X16. [insert] agrees with the pushes at the two ends, and [delete]
    undoes it: on a queue variable holding [q], [insert(0, x)] does what
    [push_front(x)] does and [insert(n, x)], [n] the size of [q], what
    [push_back(x)] does; [insert(i, x)] followed by [delete(i)], for any
    [0 ≤ i ≤ n], leaves [q]. *)
Theorem queue_insert_laws a0 a1 a2 t i n x q s :
  names_variable a0 t → constant_expr a1 (CVInteger i) → constant_expr a2 x →
  cv_bool x = true → as_int32 i = Some (Z.of_nat n) → (n ≤ length q)%nat →
  heap s !! t = Some (CVQueue q) →
  (n = 0%nat →
   QueueInsertMethod_eval [a0; a1; a2] s
   = QueuePushMethod_eval true [a0; a2] s)
  ∧ (n = length q →
     QueueInsertMethod_eval [a0; a1; a2] s
     = QueuePushMethod_eval false [a0; a2] s)
  ∧ (let* _ := QueueInsertMethod_eval [a0; a1; a2] in
     QueueDeleteMethod_eval [a0; a1]) s
    = Some (CVUnset, store t (CVQueue q) s).
Proof.
  intros Hvar Hi Hx Hset Has Hn Hq.
  rewrite (insert_on_variable a0 a1 a2 t i n x q s) by done.
  split_and!.
  - intros ->. rewrite (push_on_variable true a0 a2 t x q s) by done.
    by rewrite take_0, drop_0.
  - intros ->. rewrite (push_on_variable false a0 a2 t x q s) by done.
    by rewrite firstn_all, drop_all.
  - unfold bind at 1.
    rewrite (insert_on_variable a0 a1 a2 t i n x q s) by done.
    erewrite (delete_on_variable a0 a1 t i n);
      [|done|done|done| |apply store_lookup].
    2: { rewrite length_app, length_take. simpl. rewrite length_drop. lia. }
    rewrite store_store. do 4 f_equal.
    rewrite take_app_le by (rewrite length_take; lia).
    rewrite take_take, Nat.min_id.
    rewrite (drop_app_ge _ _ (S n)) by (rewrite length_take; lia).
    rewrite length_take.
    replace (S n - n `min` length q)%nat with 1%nat by lia.
    simpl. rewrite drop_0. apply take_drop.
Qed.

End QueueLaws.

Section ContainerLaws.
Context {ext : Externals}.

Ltac run_eval :=
  repeat (unfold bind at 1; simpl;
          repeat match goal with
                 | Hrun : ?m = _ |- context [?m] => rewrite Hrun
                 end; simpl).

Lemma size_on_variable a0 t v s :
  names_variable a0 t → cv_bool v = true →
  heap s !! t = Some v →
  ArraySizeMethod_eval [a0] s
  = Some (CVInteger (SVInt_of 32 (N.of_nat (cv_size v)) true), s).
Proof.
  intros (Hval & _) Hset Hv. specialize (Hval s v Hv).
  unfold ArraySizeMethod_eval, arg. run_eval. by destruct v.
Qed.

Lemma clear_on_variable a0 t q s :
  names_variable a0 t → heap s !! t = Some (CVQueue q) →
  QueueDeleteMethod_eval [a0] s = Some (CVUnset, store t (CVQueue []) s).
Proof.
  intros (_ & lval & Hvalid & Hlv & Hres) Hq.
  eapply QueueDelete_eval_clear; eauto.
Qed.

(** X17. [size] counts the elements, as a signed 32-bit integer without
    unknown bits, and follows the mutators: on a queue variable holding
    [q] it returns the length of [q]; after [delete()] it returns 0; after
    [push_back(x)] it returns the length of [q] plus one. It leaves the
    context as it is. *)
Theorem queue_size_laws a0 a1 t x q s :
  names_variable a0 t → constant_expr a1 x → cv_bool x = true →
  heap s !! t = Some (CVQueue q) →
  (N.of_nat (length q) + 1 < 2 ^ 32)%N →
  let int32 n := CVInteger {| sv_bitWidth := 32; sv_signFlag := true;
                              sv_value := n; sv_unknown := 0 |} in
  ArraySizeMethod_eval [a0] s = Some (int32 (N.of_nat (length q)), s)
  ∧ (let* _ := QueueDeleteMethod_eval [a0] in ArraySizeMethod_eval [a0]) s
    = Some (int32 0%N, store t (CVQueue []) s)
  ∧ (let* _ := QueuePushMethod_eval false [a0; a1] in
     ArraySizeMethod_eval [a0]) s
    = Some (int32 (N.of_nat (length q) + 1)%N, store t (CVQueue (q ++ [x])) s).
Proof.
  intros Hvar Hx Hset Hq Hsmall int32. split_and!.
  - rewrite (size_on_variable a0 t (CVQueue q) s) by done.
    unfold SVInt_of, int32. simpl. rewrite N.mod_small by lia. done.
  - unfold bind. rewrite (clear_on_variable a0 t q s) by done.
    rewrite (size_on_variable a0 t (CVQueue [])); [done..|].
    apply store_lookup.
  - unfold bind. rewrite (push_on_variable false a0 a1 t x q s) by done.
    rewrite (size_on_variable a0 t (CVQueue (q ++ [x])));
      [|done..|apply store_lookup].
    unfold SVInt_of, int32. simpl. rewrite length_app. simpl.
    rewrite N.mod_small by lia. do 4 f_equal. lia.
Qed.

(** *** Sorting *)



Lemma ArraySort_eval_elements reversed a0 callInfo s lval s1 t vec :
  iterExpr callInfo = None →
  evalLValue a0 s = Some (lval, s1) →
  lval_bool lval = true →
  resolve lval (heap s1) = Some t →
  heap s1 !! t = Some (CVElements vec) →
  ArraySortMethod_eval reversed [a0] callInfo s
  = Some (CVUnset, store t (CVElements (sortTarget reversed vec)) s1).
Proof.
  intros Hiter Hlv Hvalid Hres Hq.
  unfold ArraySortMethod_eval, arg, resolve_in, deref.
  run_eval. done.
Qed.

Lemma sortTarget_perm reversed l : sortTarget reversed l ≡ₚ l.
Proof.
  unfold sortTarget. destruct reversed.
  - by rewrite reverse_Permutation, std_sort_perm, reverse_Permutation.
  - apply std_sort_perm.
Qed.

Lemma sortTarget_sorted (reversed : bool) l :
  strict_total_on cv_less l →
  StronglySorted
    (if reversed then descending cv_less else ascending cv_less)
    (sortTarget reversed l).
Proof.
  intros Hord. unfold sortTarget. destruct reversed.
  - assert (std_sort cv_less (reverse l) = std_sort cv_less l) as ->.
    { apply std_sort_perm_eq; [done|]. symmetry. apply reverse_Permutation. }
    apply (StronglySorted_reverse (ascending cv_less)).
    by apply std_sort_sorted.
  - by apply std_sort_sorted.
Qed.

(** X19. [sort] and [rsort] order a queue and a fixed-size array alike, in
    place: when [operator<] orders the elements totally, the variable read
    after the call holds a container of the same kind and size whose
    elements are a permutation of those of before, in ascending order for
    [sort] and in descending order for [rsort]; the other locations and
    the diagnostics are as before. *)
Theorem sort_orders_in_place (reversed : bool) a0 callInfo s lval s1 t v :
  iterExpr callInfo = None →
  evalLValue a0 s = Some (lval, s1) →
  lval_bool lval = true →
  resolve lval (heap s1) = Some t →
  heap s1 !! t = Some v →
  (∃ l, v = CVQueue l ∨ v = CVElements l) →
  strict_total_on cv_less (cv_elements v) →
  ∃ v' s',
    ArraySortMethod_eval reversed [a0] callInfo s = Some (CVUnset, s')
    ∧ heap s' !! t = Some v'
    ∧ (∀ l, l ≠ t → heap s' !! l = heap s1 !! l)
    ∧ diags s' = diags s1
    ∧ isQueue v' = isQueue v
    ∧ cv_size v' = cv_size v
    ∧ cv_elements v' ≡ₚ cv_elements v
    ∧ StronglySorted
        (if reversed then descending cv_less else ascending cv_less)
        (cv_elements v').
Proof.
  intros Hiter Hlv Hvalid Hres Hv [l [->| ->]] Hord.
  - exists (CVQueue (sortTarget reversed l)),
           (store t (CVQueue (sortTarget reversed l)) s1).
    rewrite (ArraySort_eval_run reversed a0 callInfo s lval s1 t l) by done.
    destruct (store_read_back t (CVQueue (sortTarget reversed l)) s1)
      as (? & ? & ? & _).
    simpl. split_and!; try done.
    + apply Permutation_length, sortTarget_perm.
    + apply sortTarget_perm.
    + by apply sortTarget_sorted.
  - exists (CVElements (sortTarget reversed l)),
           (store t (CVElements (sortTarget reversed l)) s1).
    rewrite (ArraySort_eval_elements reversed a0 callInfo s lval s1 t l)
      by done.
    destruct (store_read_back t (CVElements (sortTarget reversed l)) s1)
      as (? & ? & ? & _).
    simpl. split_and!; try done.
    + apply Permutation_length, sortTarget_perm.
    + apply sortTarget_perm.
    + by apply sortTarget_sorted.
Qed.

(** *** Reductions over a container that is not empty *)

Lemma reduce_rest_integers op : ∀ rest result,
  reduce_rest op result (CVInteger <$> rest) = Some (foldl op result rest).
Proof.
  induction rest as [|i rest IH]; intros result; simpl; [done|]. apply IH.
Qed.

Lemma cv_elements_not_empty arr v vs :
  cv_elements arr = v :: vs → cv_empty arr = false.
Proof.
  unfold cv_empty. destruct arr as [| | |l|l|m]; simpl; try done.
  - by intros ->.
  - by intros ->.
  - destruct m; done.
Qed.

(** X20. A reduction without a [with] clause folds the operator over the
    elements from the left, starting from the first element (not from an
    identity): over the integers [i, i1, .., ik] it returns
    [op (.. (op i i1) ..) ik], so a single element is returned as it is,
    whatever the operator; the context is the one left by the evaluation
    of the container. *)
Theorem reduction_folds_from_first op a0 rest callInfo s arr s1 i others :
  eval a0 s = Some (arr, s1) →
  cv_bool arr = true →
  cv_elements arr = CVInteger <$> (i :: others) →
  iterExpr callInfo = None →
  ArrayReductionMethod_eval op (a0 :: rest) callInfo s
  = Some (CVInteger (foldl op i others), s1)
  ∧ (others = [] →
     ArrayReductionMethod_eval op (a0 :: rest) callInfo s
     = Some (CVInteger i, s1)).
Proof.
  intros Harr Hset Helems Hiter.
  assert (ArrayReductionMethod_eval op (a0 :: rest) callInfo s
          = Some (CVInteger (foldl op i others), s1)) as Hrun.
  { unfold ArrayReductionMethod_eval, arg.
    unfold bind at 1. simpl. unfold bind at 1.
    rewrite Harr, Hset, Hiter. simpl.
    rewrite (cv_elements_not_empty arr _ _ Helems), Helems. simpl.
    unfold bind, lift, ret. simpl. by rewrite reduce_rest_integers. }
  split; [done|]. intros ->. done.
Qed.

End ContainerLaws.

Section AssociativeFacts.
Context {ext : Externals}.

Ltac run_eval :=
  repeat (unfold bind at 1; simpl;
          repeat match goal with
                 | Hrun : ?m = _ |- context [?m] => rewrite Hrun
                 end; simpl).

Lemma existsb_filter_out {A} (f : A → bool) (l : list A) :
  existsb f (filter (λ x, f x = false) l) = false.
Proof.
  induction l as [|x l IH]; [done|].
  destruct (f x) eqn:Hx.
  - by rewrite filter_cons_False by congruence.
  - rewrite filter_cons_True by done. simpl. by rewrite Hx.
Qed.

Lemma filter_out_absent {A} (f : A → bool) (l : list A) :
  existsb f l = false → filter (λ x, f x = false) l = l.
Proof.
  induction l as [|x l IH]; [done|]. simpl.
  intros [Hx Hl]%orb_false_iff.
  rewrite filter_cons_True by done. by rewrite IH.
Qed.

Lemma exists_on_variable a0 a1 t key m s :
  names_variable a0 t → constant_expr a1 key → cv_bool key = true →
  heap s !! t = Some (CVMap m) →
  AssocArrayExistsMethod_eval [a0; a1] s
  = Some (CVInteger
            (SVInt_of 32
               (if existsb (λ kv, same_key kv.1 key) m then 1 else 0) true),
          s).
Proof.
  intros (Hval & _) Hkey Hset Hm. specialize (Hval s _ Hm).
  specialize (Hkey s).
  unfold AssocArrayExistsMethod_eval, arg. run_eval. by destruct key.
Qed.

Lemma assoc_delete_on_variable a0 a1 t key m s :
  names_variable a0 t → constant_expr a1 key → cv_bool key = true →
  heap s !! t = Some (CVMap m) →
  AssocArrayDeleteMethod_eval [a0; a1] s
  = Some (CVUnset,
          store t (CVMap (filter (λ kv, same_key kv.1 key = false) m)) s).
Proof.
  intros (_ & lval & Hvalid & Hlv & Hres) Hkey Hset Hm.
  specialize (Hlv s). specialize (Hkey s). specialize (Hres _ _ Hm).
  unfold AssocArrayDeleteMethod_eval, arg, resolve_in, deref.
  run_eval. destruct key; try done; run_eval; done.
Qed.

(** X21. Deleting a key of an associative array and asking for it. On an
    associative-array variable, [exists(k)] returns 1 or 0 as some entry
    has a key that is neither less nor greater than [k], and changes
    nothing. [delete(k)] removes the entries with such a key, keeps the
    others in their order, and records no diagnostic, also when there is
    no such entry, in which case the array is left as it is. After
    [delete(k)], [exists(k)] returns 0. *)
Theorem assoc_delete_then_exists a0 a1 t key m s :
  names_variable a0 t → constant_expr a1 key → cv_bool key = true →
  heap s !! t = Some (CVMap m) →
  let present := existsb (λ kv, same_key kv.1 key) m in
  let kept := filter (λ kv, same_key kv.1 key = false) m in
  let int32 n := CVInteger {| sv_bitWidth := 32; sv_signFlag := true;
                              sv_value := n; sv_unknown := 0 |} in
  AssocArrayExistsMethod_eval [a0; a1] s
  = Some (int32 (if present then 1 else 0)%N, s)
  ∧ AssocArrayDeleteMethod_eval [a0; a1] s
    = Some (CVUnset, store t (CVMap kept) s)
  ∧ diags (store t (CVMap kept) s) = diags s
  ∧ (present = false → kept = m)
  ∧ (let* _ := AssocArrayDeleteMethod_eval [a0; a1] in
     AssocArrayExistsMethod_eval [a0; a1]) s
    = Some (int32 0%N, store t (CVMap kept) s).
Proof.
  intros Hvar Hkey Hset Hm present kept int32. split_and!.
  - rewrite (exists_on_variable a0 a1 t key m s) by done.
    fold present. by destruct present.
  - by apply assoc_delete_on_variable.
  - done.
  - apply filter_out_absent.
  - unfold bind. rewrite (assoc_delete_on_variable a0 a1 t key m s) by done.
    rewrite (exists_on_variable a0 a1 t key kept);
      [|done..|apply store_lookup].
    unfold kept. by rewrite existsb_filter_out.
Qed.

(** X22. A method whose receiver or operand fails to evaluate does nothing
    of its own: it returns the unset value and the context is the one that
    the evaluation of the operands left, with no further diagnostic and no
    change of a value. This holds for [pop_front], [pop_back], [sort],
    [rsort] and [delete] (with or without an index, which is then not
    evaluated) when the receiver is not a valid lvalue; for the reductions
    and [size] when the container evaluates to the unset value; for the
    pushes when the receiver is not valid or the value is unset; for
    [insert] when the receiver is not valid or the index or the value is
    unset. [delete] with an index is the exception among the operands: it
    does not test the index, and on a valid queue an index that evaluates
    to the unset value ends the evaluation abnormally. *)
Theorem operand_failure_propagates a0 a1 a2 callInfo s :
  (∀ lval s1, evalLValue a0 s = Some (lval, s1) → lval_bool lval = false →
     (∀ front, QueuePopMethod_eval front [a0] s = Some (CVUnset, s1))
     ∧ (∀ reversed,
          ArraySortMethod_eval reversed [a0] callInfo s = Some (CVUnset, s1))
     ∧ QueueDeleteMethod_eval [a0] s = Some (CVUnset, s1)
     ∧ QueueDeleteMethod_eval [a0; a1] s = Some (CVUnset, s1))
  ∧ (∀ lval s1 t q0 s2 q,
       evalLValue a0 s = Some (lval, s1) → lval_bool lval = true →
       resolve lval (heap s1) = Some t →
       heap s1 !! t = Some (CVQueue q0) →
       eval a1 s1 = Some (CVUnset, s2) →
       heap s2 !! t = Some (CVQueue q) →
       QueueDeleteMethod_eval [a0; a1] s = None)
  ∧ (∀ s1, eval a0 s = Some (CVUnset, s1) →
       (∀ op, ArrayReductionMethod_eval op [a0] callInfo s
              = Some (CVUnset, s1))
       ∧ ArraySizeMethod_eval [a0] s = Some (CVUnset, s1))
  ∧ (∀ lval s1 x s2,
       evalLValue a0 s = Some (lval, s1) → eval a1 s1 = Some (x, s2) →
       lval_bool lval = false ∨ cv_bool x = false →
       ∀ front, QueuePushMethod_eval front [a0; a1] s = Some (CVUnset, s2))
  ∧ (∀ lval s1 ci s2 x s3,
       evalLValue a0 s = Some (lval, s1) → eval a1 s1 = Some (ci, s2) →
       eval a2 s2 = Some (x, s3) →
       lval_bool lval = false ∨ cv_bool ci = false ∨ cv_bool x = false →
       QueueInsertMethod_eval [a0; a1; a2] s = Some (CVUnset, s3)).
Proof.
  split_and!.
  - intros lval s1 Hlv Hbad. split_and!.
    + intros front. unfold QueuePopMethod_eval, arg. run_eval. done.
    + intros reversed. unfold ArraySortMethod_eval, arg. run_eval. done.
    + unfold QueueDeleteMethod_eval, arg. run_eval. done.
    + unfold QueueDeleteMethod_eval, arg. run_eval. done.
  - intros lval s1 t q0 s2 q Hlv Hvalid Hres Hq0 Hci Hq.
    unfold QueueDeleteMethod_eval, arg, resolve_in, target_queue, deref.
    run_eval. done.
  - intros s1 Harr. split.
    + intros op. unfold ArrayReductionMethod_eval, arg. run_eval. done.
    + unfold ArraySizeMethod_eval, arg. run_eval. done.
  - intros lval s1 x s2 Hlv Hx Hbad front.
    unfold QueuePushMethod_eval, arg. run_eval.
    destruct Hbad as [-> | ->]; simpl; [done|].
    by rewrite orb_true_r.
  - intros lval s1 ci s2 x s3 Hlv Hci Hx Hbad.
    unfold QueueInsertMethod_eval, arg. run_eval.
    destruct Hbad as [-> |[-> | ->]]; simpl; rewrite ?orb_true_r; done.
Qed.

(** X23. [registerArrayMethods] registers at most one method under a name
    for a kind of symbol, so that a method is identified by the kind and
    the name. *)
Theorem registered_names_unique :
  NoDup ((λ entry : SymbolKind * SystemMethod,
            (entry.1, method_name entry.2)) <$> registerArrayMethods).
Proof. apply (bool_decide_unpack _). vm_compute. exact I. Qed.

End AssociativeFacts.


Section BindingFacts.
Context {bx : BindExternals}.

(** X24. [checkArguments] of a reduction (or, and, xor, sum, product)
    only accepts integral operands: once the argument count is right, the
    type it returns is the type of the with-expression, or without one the
    element type of the array, and that type is integral and nothing is
    reported; otherwise the result is the error type, with exactly one
    more diagnostic, [ArrayMethodIntegral], at the offending expression and
    naming the method.  A wrong argument count gives the error type and
    only what the count check reported. *)
Theorem reduction_checkArguments_integral (name : string) (args : Args)
    (range : SourceRange) (iterExpr : option Expression)
    (ds : list Diagnostic) (a0 : Expression) (elemType : Type_) :
  args !! 0%nat = Some a0 →
  getArrayElementType (expr_type a0) = Some elemType →
  let counted := checkArgCount true args range 0 0 ds in
  let operand := default a0 iterExpr in
  let ty := from_option expr_type elemType iterExpr in
  ArrayReductionMethod_checkArguments name args range iterExpr ds =
    Some (if negb counted.1 then (ErrorType, counted.2)
          else if isIntegral ty then (TypeOf ty, counted.2)
          else (ErrorType,
                counted.2 ++
                [shl (newDiagnostic ArrayMethodIntegral
                        (AtRange (sourceRange operand)))
                     (ArgText name)])).
Proof.
  intros Ha0 Helem counted operand ty.
  unfold ArrayReductionMethod_checkArguments, addMethodIntegral.
  subst counted operand ty.
  destruct (checkArgCount true args range 0 0 ds) as [ok ds1]. simpl.
  destruct ok; simpl; [|done].
  destruct iterExpr as [ie|]; simpl.
  - by destruct (isIntegral (expr_type ie)).
  - rewrite Ha0, Helem. by destruct (isIntegral elemType).
Qed.

(** X25. A sort (sort, rsort) accepts exactly the calls that a
    reduction accepts and reports exactly the same diagnostics: its
    [checkArguments] returns the error type where that of a reduction
    does, and the void type where a reduction returns the operand type. *)
Theorem sort_accepts_what_reduction_accepts (name : string) (args : Args)
    (range : SourceRange) (iterExpr : option Expression)
    (ds : list Diagnostic) :
  ArraySortMethod_checkArguments name args range iterExpr ds =
    (λ r, (match r.1 with TypeOf _ => VoidType | ty => ty end, r.2)) <$>
      ArrayReductionMethod_checkArguments name args range iterExpr ds.
Proof.
  unfold ArraySortMethod_checkArguments, ArrayReductionMethod_checkArguments.
  destruct (checkArgCount true args range 0 0 ds) as [ok ds1].
  destruct ok; simpl; [|done].
  destruct iterExpr as [ie|]; simpl.
  - by destruct (isIntegral (expr_type ie)).
  - destruct (args !! 0%nat) as [a0|]; simpl; [|done].
    destruct (getArrayElementType (expr_type a0)) as [elemType|]; simpl;
      [|done].
    by destruct (isIntegral elemType).
Qed.

End BindingFacts.

Section FlagFacts.

(** X26. Every flag of [ASTFlags] other than [None] is a single bit of
    the 64-bit mask, and two different flags never share a bit, so
    setting one flag cannot be mistaken for another. *)
Theorem ASTFlags_do_not_overlap (f g : ASTFlags) :
  f ≠ g →
  N.land (ASTFlags_value f) (ASTFlags_value g) = 0%N
  ∧ (f ≠ NoFlags →
     ∃ k, (k < 64)%N ∧ ASTFlags_value f = (2 ^ k)%N).
Proof.
  intros Hfg. split.
  - destruct f; destruct g; first [done | vm_compute; reflexivity].
  - intros Hf. destruct (ASTFlags_shift f) as [k|] eqn:Hk.
    + exists k. by destruct f; simplify_eq/=; vm_compute.
    + by destruct f.
Qed.

(** X27. [inUnevaluatedBranch] reads the [UnevaluatedBranch] bit and
    nothing else: setting that flag makes it true, setting any other flag
    leaves it as it was, and [clearInstanceAndProc] does not change it. *)
Theorem inUnevaluatedBranch_reads_one_flag (context : ASTContext)
    (f : ASTFlags) :
  inUnevaluatedBranch (with_flag context f) =
    (if decide (f = UnevaluatedBranch) then true
     else inUnevaluatedBranch context)
  ∧ inUnevaluatedBranch (clearInstanceAndProc context) =
      inUnevaluatedBranch context.
Proof.
  split; [|done].
  unfold inUnevaluatedBranch, with_flag. simpl.
  rewrite N.land_lor_distr_l.
  destruct (decide (f = UnevaluatedBranch)) as [->|Hf].
  - replace (N.land (ASTFlags_value UnevaluatedBranch)
                    (ASTFlags_value UnevaluatedBranch)) with 2%N
      by (vm_compute; reflexivity).
    destruct (N.eqb_spec (N.lor (N.land (flags context)
                (ASTFlags_value UnevaluatedBranch)) 2) 0) as [H0|]; [|done].
    apply N.lor_eq_0_iff in H0 as [_ ?]. done.
  - replace (N.land (ASTFlags_value f) (ASTFlags_value UnevaluatedBranch))
      with 0%N; [by rewrite N.lor_0_r|].
    destruct f; first [done | vm_compute; reflexivity].
Qed.

End FlagFacts.


Section DynamicArrayFacts.
Context {ext : Externals}.

Ltac run_eval :=
  repeat (unfold bind at 1; simpl;
          repeat match goal with
                 | Hrun : ?m = _ |- context [?m] => rewrite Hrun
                 end; simpl).

(** X28. [delete()] of a dynamic array resets the variable to the default
    value of its declared type, whatever it held: reading the variable
    afterwards gives that default, a second [delete()] changes nothing
    more, [size()] afterwards is the size of the default, and no
    diagnostic is recorded. *)
Theorem dynamic_delete_resets a0 t v s :
  names_variable a0 t → heap s !! t = Some v →
  let fresh := getDefaultValue (expr_type a0) in
  let delete := DynArrayDeleteMethod_eval [a0] in
  delete s = Some (CVUnset, store t fresh s)
  ∧ (let* _ := delete in eval a0) s = Some (fresh, store t fresh s)
  ∧ (let* _ := delete in delete) s = delete s
  ∧ diags (store t fresh s) = diags s
  ∧ (cv_bool fresh = true →
     (let* _ := delete in ArraySizeMethod_eval [a0]) s
     = Some (CVInteger (SVInt_of 32 (N.of_nat (cv_size fresh)) true),
             store t fresh s)).
Proof.
  intros Hname Hv fresh delete.
  assert (∀ s' w, heap s' !! t = Some w →
            delete s' = Some (CVUnset, store t fresh s')) as Hdelete.
  { intros s' w Hw. destruct Hname as (_ & lval & Hvalid & Hlv & Hres).
    pose proof (Hlv s') as Hlv'. pose proof (Hres _ _ Hw) as Hres'.
    unfold delete, DynArrayDeleteMethod_eval, arg, lval_store, resolve_in.
    run_eval. unfold modify. done. }
  assert (heap (store t fresh s) !! t = Some fresh) as Hfresh
    by apply store_lookup.
  split_and!.
  - by apply (Hdelete s v).
  - unfold bind at 1. rewrite (Hdelete s v Hv).
    destruct Hname as (Hval & _). by apply Hval.
  - unfold bind at 1. rewrite (Hdelete s v Hv).
    rewrite (Hdelete _ fresh Hfresh). by rewrite store_store.
  - done.
  - intros Hset. unfold bind at 1. rewrite (Hdelete s v Hv).
    by apply (size_on_variable a0 t fresh).
Qed.

End DynamicArrayFacts.

(** * The further properties on the sample inputs *)

Lemma sample_queue_names elem :
  names_variable (sample_queue_expr elem 20) 20.
Proof.
  split.
  - intros s v Hv. simpl. by rewrite Hv.
  - exists sample_lvalue. split_and!; [done|done|].
    intros hp v Hv. unfold sample_lvalue, resolve, loc in *. by rewrite Hv.
Qed.

Lemma sample_literal_constant n :
  constant_expr (sample_literal n) (sample_int n).
Proof. by intros s. Qed.

Lemma createLocal_then_findLocal_witness :
  ∃ l s',
    createLocal sample_arg (sample_int 7) sample_shallow_ctx = Some (l, s')
    ∧ findLocal sample_arg s' = Some (Some l, s')
    ∧ heap s' !! l = Some (sample_int 7).
Proof.
  destruct (createLocal_then_findLocal sample_arg (sample_int 7)
              sample_shallow_ctx)
    as (l & s' & Hcreate & Hfind & Hheap & _);
    [vm_compute; congruence|reflexivity|].
  exists l, s'. split; [exact Hcreate|]. split; [exact Hfind|exact Hheap].
Defined.

Lemma createLocal_again_same_location_witness :
  let s1 := store 10 (sample_int 7) sample_shallow_ctx in
  createLocal sample_arg (sample_int 7) sample_shallow_ctx
  = Some (10%positive, s1)
  ∧ ∃ s2,
      createLocal sample_arg (sample_int 8) s1 = Some (10%positive, s2)
      ∧ heap s2 !! 10%positive = Some (sample_int 8).
Proof.
  intros s1. split; [reflexivity|].
  destruct (createLocal_again_same_location sample_arg (sample_int 7)
              (sample_int 8) sample_shallow_ctx 10%positive s1)
    as (s2 & Hagain & _ & Hread & _); [reflexivity..|].
  exists s2. split; [exact Hagain|exact Hread].
Defined.

Lemma deleteLocal_then_findLocal_witness :
  let s := set_stack [emptyFrame] sample_ctx in
  deleteLocal sample_arg s = Some (tt, s)
  ∧ ∃ s', deleteLocal sample_arg sample_shallow_ctx = Some (tt, s')
          ∧ findLocal sample_arg s' = Some (None, s').
Proof.
  intros s. split.
  - destruct (deleteLocal_then_findLocal sample_arg s)
      as (s' & Hdelete & _ & _ & _ & _ & _ & Hsame).
    rewrite Hdelete. by rewrite (Hsame eq_refl).
  - destruct (deleteLocal_then_findLocal sample_arg sample_shallow_ctx)
      as (s' & Hdelete & Hfind & _).
    exists s'. split; [exact Hdelete|exact Hfind].
Defined.

Lemma frames_push_pop_witness :
  (let* _ := pushFrame (ext := sample_externals) sample_sub 101%N 0%N in
   popFrame) sample_shallow_ctx
  = Some (tt, sample_shallow_ctx).
Proof.
  destruct (frames_push_pop (ext := sample_externals) sample_shallow_ctx)
    as (_ & Hcall & _).
  apply Hcall. vm_compute. reflexivity.
Defined.

Lemma pushFrame_keeps_depth_witness :
  ∃ s',
    pushFrame (ext := sample_externals) sample_sub 103%N 0%N sample_ctx
    = Some (false, s')
    ∧ length (stack s') = 4%nat
    ∧ (N.of_nat (length (stack s')) ≤ maxConstexprDepth (options s'))%N.
Proof.
  assert (∃ s', pushFrame (ext := sample_externals) sample_sub 103%N 0%N
                  sample_ctx = Some (false, s')) as [s' Hpush]
    by (eexists; vm_compute; reflexivity).
  destruct (pushFrame_keeps_depth (ext := sample_externals) sample_sub
              103%N 0%N sample_ctx false s' Hpush)
    as (Hdepth & _ & Hlength); [vm_compute; congruence|].
  exists s'. split; [exact Hpush|]. split; [exact Hlength|exact Hdepth].
Defined.

Lemma lvalue_stack_lifo_witness :
  getTopLValue sample_ctx = Some (None, sample_ctx)
  ∧ (let* _ := pushLValue sample_lvalue in popLValue) sample_ctx
    = Some (tt, sample_ctx).
Proof.
  destruct (lvalue_stack_lifo sample_lvalue sample_ctx)
    as (_ & Hpop & Hempty).
  split; [exact (Hempty eq_refl)|exact Hpop].
Defined.

Lemma steps_budget_exact_witness :
  stack_bound sample_ctx
  ∧ steps_loop (ext := sample_externals) 2 5%N sample_ctx
    = Some (true, set_steps 2 sample_ctx)
  ∧ ∃ diag,
      steps_loop (ext := sample_externals) 7 5%N sample_ctx
      = Some (false, set_diags [diag] (set_steps 3 sample_ctx))
      ∧ code diag = ConstEvalExceededMaxSteps.
Proof.
  split; [exact sample_ctx_bound|]. split.
  - destruct (steps_budget_exact (ext := sample_externals) 5%N 2 sample_ctx
                sample_ctx_bound eq_refl) as [Hwithin _];
      [vm_compute; split; congruence|].
    apply Hwithin. vm_compute. reflexivity.
  - destruct (steps_budget_exact (ext := sample_externals) 5%N 7 sample_ctx
                sample_ctx_bound eq_refl) as [_ Hbeyond];
      [vm_compute; split; congruence|].
    destruct Hbeyond as (diag & Hrun & Hcode & _); [vm_compute; congruence|].
    exists diag. split; [exact Hrun|exact Hcode].
Defined.

Lemma reset_makes_fresh_witness :
  ∃ s0,
    reset sample_ctx = Some (tt, s0)
    ∧ stack s0 = []
    ∧ steps_loop (ext := sample_externals) 2 5%N s0
      = Some (true, set_steps 2 s0).
Proof.
  destruct (reset_makes_fresh (ext := sample_externals) sample_ctx)
    as (s0 & Hreset & _ & Hstack & _ & _ & _ & _ & _ & Hsteps).
  exists s0. split; [exact Hreset|]. split; [exact Hstack|].
  apply Hsteps. vm_compute. split; congruence.
Defined.

Lemma recording_only_appends_witness :
  ∃ ok s' more,
    step (ext := sample_externals) 5%N
      (set_steps 2 (set_diags [newDiagnostic ConstEvalEmptyQueue
                                 (AtLocation 1%N)] sample_ctx))
    = Some (ok, s')
    ∧ diags s' = newDiagnostic ConstEvalEmptyQueue (AtLocation 1%N) :: more.
Proof.
  set (s := set_steps 2 (set_diags [newDiagnostic ConstEvalEmptyQueue
                                      (AtLocation 1%N)] sample_ctx)).
  assert (∃ ok s', step (ext := sample_externals) 5%N s = Some (ok, s'))
    as (ok & s' & Hstep) by (eexists _, _; vm_compute; reflexivity).
  destruct (recording_only_appends (ext := sample_externals) s)
    as (_ & _ & _ & Hkeeps & _).
  destruct (Hkeeps 5%N ok s' Hstep) as (more & Hdiags & _).
  exists ok, s', more. split; [exact Hstep|exact Hdiags].
Defined.

Lemma backtrace_is_bounded_witness :
  let diag := newDiagnostic ConstEvalExceededMaxSteps (AtLocation 5%N) in
  stack_bound sample_ctx
  ∧ ∃ ns,
      reportStack (ext := sample_externals) sample_ctx diag
      = Some (add_notes diag ns)
      ∧ (length ns ≤ 3)%nat.
Proof.
  intros diag. split; [exact sample_ctx_bound|].
  destruct (backtrace_is_bounded (ext := sample_externals) sample_ctx diag
              sample_ctx_bound)
    as (ns & Hrun & Hlimit & _); [vm_compute; congruence|].
  exists ns. split; [exact Hrun|exact Hlimit].
Defined.

Lemma backtrace_elides_the_middle_witness :
  let diag := newDiagnostic ConstEvalExceededMaxSteps (AtLocation 5%N) in
  stack_bound sample_ctx
  ∧ ∃ first_half skipped last_half frame,
      display_order sample_ctx = first_half ++ skipped ++ last_half
      ∧ length first_half = 1%nat
      ∧ length last_half = 1%nat
      ∧ N.of_nat (length skipped) = 2%N
      ∧ head skipped = Some frame
      ∧ reportStack (ext := sample_externals) sample_ctx diag
        = Some (add_notes diag
            (flat_map (frame_note (ext := sample_externals)
                         (heap sample_ctx)) first_half
             ++ elision_note frame (N.of_nat (length skipped))
             :: flat_map (frame_note (ext := sample_externals)
                            (heap sample_ctx)) last_half)).
Proof.
  intros diag. split; [exact sample_ctx_bound|].
  destruct (backtrace_elides_the_middle (ext := sample_externals) sample_ctx
              diag sample_ctx_bound)
    as (first_half & skipped & last_half & frame & Horder & Hfirst & Hlast
        & Hskipped & Hhead & Hrun);
    [vm_compute; congruence|vm_compute; reflexivity|].
  exists first_half, skipped, last_half, frame.
  split; [exact Horder|]. split; [exact Hfirst|]. split; [exact Hlast|].
  split; [exact Hskipped|]. split; [exact Hhead|exact Hrun].
Defined.

Lemma backtrace_lists_calls_in_order_witness :
  let diag := newDiagnostic ConstEvalExceededMaxSteps (AtLocation 5%N) in
  stack_bound sample_shallow_ctx
  ∧ ∃ ns,
      reportStack (ext := sample_externals) sample_shallow_ctx diag
      = Some (add_notes diag ns)
      ∧ location <$> ns = [AtLocation 100%N].
Proof.
  intros diag. split; [exact sample_shallow_ctx_bound|].
  destruct (backtrace_lists_calls_in_order (ext := sample_externals)
              sample_shallow_ctx diag sample_shallow_ctx_bound)
    as (ns & Hrun & Hwhere & _); [left; vm_compute; congruence|].
  exists ns. split; [exact Hrun|exact Hwhere].
Defined.


Lemma QueueDelete_eval_spec_witness :
  let q := [sample_int 1; sample_int 2; sample_int 3] in
  stack_bound (sample_queue_ctx q)
  ∧ (∃ s',
       QueueDeleteMethod_eval (ext := sample_externals) [sample_queue]
         (sample_queue_ctx q)
       = Some (CVUnset, s')
       ∧ heap s' !! 20%positive = Some (CVQueue []))
  ∧ (∃ s',
       QueueDeleteMethod_eval (ext := sample_externals)
         [sample_queue; sample_literal 1] (sample_queue_ctx q)
       = Some (CVUnset, s')
       ∧ heap s' !! 20%positive
         = Some (CVQueue [sample_int 1; sample_int 3]))
  ∧ ∃ diag s',
      QueueDeleteMethod_eval (ext := sample_externals)
        [sample_queue; sample_literal 3] (sample_queue_ctx q)
      = Some (CVUnset, s')
      ∧ diags s' = [diag]
      ∧ heap s' !! 20%positive = Some (CVQueue q)
      ∧ code diag = ConstEvalDynamicArrayIndex.
Proof.
  intros q. split; [apply sample_queue_ctx_bound|]. split_and!.
  - destruct (QueueDelete_eval_spec (ext := sample_externals) sample_queue
                (sample_literal 1) (sample_queue_ctx q) sample_lvalue
                (sample_queue_ctx q) q (sample_int 1) (SVInt_of 32 1 true)
                (sample_queue_ctx q) 20%positive q)
      as (Hclear & _);
      [reflexivity..|apply sample_queue_ctx_bound|].
    destruct Hclear as (s' & Hrun & _ & Hread & _).
    exists s'. split; [exact Hrun|exact Hread].
  - destruct (QueueDelete_eval_spec (ext := sample_externals) sample_queue
                (sample_literal 1) (sample_queue_ctx q) sample_lvalue
                (sample_queue_ctx q) q (sample_int 1) (SVInt_of 32 1 true)
                (sample_queue_ctx q) 20%positive q)
      as (_ & Hin & _);
      [reflexivity..|apply sample_queue_ctx_bound|].
    destruct (Hin 1%nat) as (s' & Hrun & _ & Hread & _);
      [reflexivity|simpl; lia|].
    exists s'. split; [exact Hrun|exact Hread].
  - destruct (QueueDelete_eval_spec (ext := sample_externals) sample_queue
                (sample_literal 3) (sample_queue_ctx q) sample_lvalue
                (sample_queue_ctx q) q (sample_int 3) (SVInt_of 32 3 true)
                (sample_queue_ctx q) 20%positive q)
      as (_ & _ & Hout);
      [reflexivity..|apply sample_queue_ctx_bound|].
    destruct Hout as (diag & s' & Hrun & _ & Hdiags & _ & Hread & Hcode & _).
    { right. exists 3%Z. split; [reflexivity|]. right. simpl. lia. }
    exists diag, s'. split; [exact Hrun|]. split; [exact Hdiags|].
    split; [exact Hread|exact Hcode].
Defined.

Lemma queue_push_then_pop_witness :
  let q := [sample_int 1; sample_int 2] in
  (let* _ := QueuePushMethod_eval true [sample_queue; sample_literal 9] in
   QueuePopMethod_eval (ext := sample_externals) true [sample_queue])
    (sample_queue_ctx q)
  = Some (sample_int 9, store 20 (CVQueue q) (sample_queue_ctx q))
  ∧ (let* _ := QueuePushMethod_eval false [sample_queue; sample_literal 9] in
     QueuePopMethod_eval (ext := sample_externals) true [sample_queue])
      (sample_queue_ctx q)
    = Some (sample_int 1,
            store 20 (CVQueue [sample_int 2; sample_int 9])
              (sample_queue_ctx q)).
Proof.
  intros q.
  destruct (queue_push_then_pop (ext := sample_externals) sample_queue
              (sample_literal 9) 20%positive (sample_int 9) q
              (sample_queue_ctx q))
    as (Hfront & Hback & _);
    [apply sample_queue_names|apply sample_literal_constant
    |reflexivity|reflexivity|].
  split; [exact Hfront|exact Hback].
Defined.

Lemma queue_insert_laws_witness :
  let q := [sample_int 1; sample_int 2] in
  QueueInsertMethod_eval (ext := sample_externals)
    [sample_queue; sample_literal 0; sample_literal 9] (sample_queue_ctx q)
  = QueuePushMethod_eval true [sample_queue; sample_literal 9]
      (sample_queue_ctx q)
  ∧ (let* _ := QueueInsertMethod_eval (ext := sample_externals)
                 [sample_queue; sample_literal 1; sample_literal 9] in
     QueueDeleteMethod_eval (ext := sample_externals)
       [sample_queue; sample_literal 1]) (sample_queue_ctx q)
    = Some (CVUnset, store 20 (CVQueue q) (sample_queue_ctx q)).
Proof.
  intros q. split.
  - destruct (queue_insert_laws (ext := sample_externals) sample_queue
                (sample_literal 0) (sample_literal 9) 20%positive
                (SVInt_of 32 0 true) 0%nat (sample_int 9) q
                (sample_queue_ctx q))
      as (Hfront & _);
      [apply sample_queue_names|apply sample_literal_constant
      |apply sample_literal_constant|reflexivity|reflexivity
      |simpl; lia|reflexivity|].
    exact (Hfront eq_refl).
  - destruct (queue_insert_laws (ext := sample_externals) sample_queue
                (sample_literal 1) (sample_literal 9) 20%positive
                (SVInt_of 32 1 true) 1%nat (sample_int 9) q
                (sample_queue_ctx q))
      as (_ & _ & Hundo);
      [apply sample_queue_names|apply sample_literal_constant
      |apply sample_literal_constant|reflexivity|reflexivity
      |simpl; lia|reflexivity|].
    exact Hundo.
Defined.

Lemma queue_size_laws_witness :
  let q := [sample_int 1; sample_int 2] in
  ArraySizeMethod_eval [sample_queue] (sample_queue_ctx q)
  = Some (sample_int 2, sample_queue_ctx q)
  ∧ (let* _ := QueueDeleteMethod_eval (ext := sample_externals)
                 [sample_queue] in
     ArraySizeMethod_eval [sample_queue]) (sample_queue_ctx q)
    = Some (sample_int 0, store 20 (CVQueue []) (sample_queue_ctx q))
  ∧ (let* _ := QueuePushMethod_eval false
                 [sample_queue; sample_literal 9] in
     ArraySizeMethod_eval [sample_queue]) (sample_queue_ctx q)
    = Some (sample_int 3,
            store 20 (CVQueue [sample_int 1; sample_int 2; sample_int 9])
              (sample_queue_ctx q)).
Proof.
  intros q.
  destruct (queue_size_laws (ext := sample_externals) sample_queue
              (sample_literal 9) 20%positive (sample_int 9) q
              (sample_queue_ctx q))
    as (Hsize & Hclear & Hpush);
    [apply sample_queue_names|apply sample_literal_constant
    |reflexivity|reflexivity|vm_compute; reflexivity|].
  split; [exact Hsize|]. split; [exact Hclear|exact Hpush].
Defined.


Lemma sort_orders_in_place_witness :
  let q := [sample_int 3; sample_int 1; sample_int 2] in
  let s := store 20 (CVElements q) sample_shallow_ctx in
  strict_total_on sample_less q
  ∧ ∃ v' s',
      ArraySortMethod_eval (ext := sample_externals) true [sample_queue]
        sample_no_with s
      = Some (CVUnset, s')
      ∧ heap s' !! 20%positive = Some v'
      ∧ isQueue v' = false
      ∧ cv_elements v' ≡ₚ q
      ∧ StronglySorted (descending sample_less) (cv_elements v').
Proof.
  intros q s. split; [exact sample_order|].
  destruct (sort_orders_in_place (ext := sample_externals) true sample_queue
              sample_no_with s sample_lvalue s 20%positive (CVElements q))
    as (v' & s' & Hrun & Hread & _ & _ & Hkind & _ & Hperm & Hsorted);
    [reflexivity..|exists q; right; reflexivity|exact sample_order|].
  exists v', s'. split; [exact Hrun|]. split; [exact Hread|].
  split; [exact Hkind|]. split; [exact Hperm|exact Hsorted].
Defined.

Lemma reduction_folds_from_first_witness :
  let q := [sample_int 1; sample_int 2; sample_int 3] in
  ArrayReductionMethod_eval (sv_add (Externals := sample_externals))
    [sample_queue] sample_no_with (sample_queue_ctx q)
  = Some (sample_int 6, sample_queue_ctx q)
  ∧ ArrayReductionMethod_eval (sv_mul (Externals := sample_externals))
      [sample_queue] sample_no_with (sample_queue_ctx [sample_int 5])
    = Some (sample_int 5, sample_queue_ctx [sample_int 5]).
Proof.
  intros q. split.
  - destruct (reduction_folds_from_first
                (sv_add (Externals := sample_externals)) sample_queue []
                sample_no_with (sample_queue_ctx q) (CVQueue q)
                (sample_queue_ctx q) (SVInt_of 32 1 true)
                [SVInt_of 32 2 true; SVInt_of 32 3 true])
      as [Hfold _]; [reflexivity..|].
    exact Hfold.
  - destruct (reduction_folds_from_first
                (sv_mul (Externals := sample_externals)) sample_queue []
                sample_no_with (sample_queue_ctx [sample_int 5])
                (CVQueue [sample_int 5])
                (sample_queue_ctx [sample_int 5]) (SVInt_of 32 5 true) [])
      as [_ Hone]; [reflexivity..|].
    exact (Hone eq_refl).
Defined.

Lemma assoc_delete_then_exists_witness :
  let m := [(sample_int 1, sample_int 10); (sample_int 2, sample_int 20)] in
  let s := store 20 (CVMap m) sample_shallow_ctx in
  AssocArrayExistsMethod_eval (ext := sample_externals)
    [sample_queue; sample_literal 2] s
  = Some (sample_int 1, s)
  ∧ AssocArrayDeleteMethod_eval (ext := sample_externals)
      [sample_queue; sample_literal 2] s
    = Some (CVUnset, store 20 (CVMap [(sample_int 1, sample_int 10)]) s)
  ∧ (let* _ := AssocArrayDeleteMethod_eval (ext := sample_externals)
                 [sample_queue; sample_literal 2] in
     AssocArrayExistsMethod_eval (ext := sample_externals)
       [sample_queue; sample_literal 2]) s
    = Some (sample_int 0, store 20 (CVMap [(sample_int 1, sample_int 10)]) s).
Proof.
  intros m s.
  destruct (assoc_delete_then_exists (ext := sample_externals) sample_queue
              (sample_literal 2) 20%positive (sample_int 2) m s)
    as (Hexists & Hdelete & _ & _ & Hgone);
    [apply sample_queue_names|apply sample_literal_constant
    |reflexivity|reflexivity|].
  split; [exact Hexists|]. split; [exact Hdelete|exact Hgone].
Defined.

Lemma operand_failure_propagates_witness :
  let s := sample_queue_ctx [sample_int 1] in
  QueuePopMethod_eval (ext := sample_externals) true [sample_literal 1] s
  = Some (CVUnset, s)
  ∧ QueueDeleteMethod_eval (ext := sample_externals)
      [sample_literal 1; sample_literal 9] s
    = Some (CVUnset, s)
  ∧ QueuePushMethod_eval false [sample_literal 1; sample_literal 9] s
    = Some (CVUnset, s)
  ∧ QueueDeleteMethod_eval (ext := sample_externals)
      [sample_queue; sample_unset] s
    = None.
Proof.
  intros s.
  destruct (operand_failure_propagates (ext := sample_externals)
              (sample_literal 1) (sample_literal 9) (sample_literal 9)
              sample_no_with s)
    as (Hone & _ & _ & Hpush & _).
  destruct (Hone _ s eq_refl eq_refl) as (Hpop & _ & _ & Hdelete).
  split; [exact (Hpop true)|]. split; [exact Hdelete|]. split.
  - exact (Hpush _ s (sample_int 9) s eq_refl eq_refl
             (or_introl eq_refl) false).
  - destruct (operand_failure_propagates (ext := sample_externals)
                sample_queue sample_unset sample_unset sample_no_with s)
      as (_ & Habort & _).
    exact (Habort sample_lvalue s 20%positive [sample_int 1] s
             [sample_int 1] eq_refl eq_refl eq_refl eq_refl eq_refl
             eq_refl).
Defined.

Lemma reduction_checkArguments_integral_witness :
  let range := {| range_start := 1%N; range_end := 9%N |} in
  let strings := sample_queue_expr sample_string_type 20 in
  ArrayReductionMethod_checkArguments (bx := sample_bind_externals) "sum"
    [sample_queue] range None []
  = Some (TypeOf sample_int_type, [])
  ∧ ArrayReductionMethod_checkArguments (bx := sample_bind_externals) "sum"
      [strings] range None []
    = Some (ErrorType,
            [shl (newDiagnostic ArrayMethodIntegral
                    (AtRange (sourceRange strings)))
                 (ArgText "sum")])
  ∧ ArrayReductionMethod_checkArguments (bx := sample_bind_externals) "sum"
      [strings] range (Some (sample_literal 1)) []
    = Some (TypeOf sample_int_type, []).
Proof.
  intros range strings. split_and!.
  - exact (reduction_checkArguments_integral (bx := sample_bind_externals)
             "sum" [sample_queue] range None [] sample_queue sample_int_type
             eq_refl eq_refl).
  - exact (reduction_checkArguments_integral (bx := sample_bind_externals)
             "sum" [strings] range None [] strings sample_string_type
             eq_refl eq_refl).
  - exact (reduction_checkArguments_integral (bx := sample_bind_externals)
             "sum" [strings] range (Some (sample_literal 1)) [] strings
             sample_string_type eq_refl eq_refl).
Defined.

Lemma ASTFlags_do_not_overlap_witness :
  N.land (ASTFlags_value LValueFlag) (ASTFlags_value LAndRValue) = 0%N
  ∧ ∃ k, (k < 64)%N ∧ ASTFlags_value LValueFlag = (2 ^ k)%N.
Proof.
  destruct (ASTFlags_do_not_overlap LValueFlag LAndRValue) as [Hapart Hbit];
    [vm_compute; congruence|].
  split; [exact Hapart|]. apply Hbit. vm_compute. congruence.
Defined.

Lemma dynamic_delete_resets_witness :
  let q := [sample_int 1; sample_int 2] in
  DynArrayDeleteMethod_eval [sample_queue] (sample_queue_ctx q)
  = Some (CVUnset, store 20 (CVQueue []) (sample_queue_ctx q))
  ∧ (let* _ := DynArrayDeleteMethod_eval [sample_queue] in
     ArraySizeMethod_eval [sample_queue]) (sample_queue_ctx q)
    = Some (sample_int 0, store 20 (CVQueue []) (sample_queue_ctx q)).
Proof.
  intros q.
  destruct (dynamic_delete_resets sample_queue 20%positive (CVQueue q)
              (sample_queue_ctx q))
    as (Hdelete & _ & _ & _ & Hsize);
    [apply sample_queue_names|reflexivity|].
  split; [exact Hdelete|exact (Hsize eq_refl)].
Defined.
